(* ===================================================================== *)
(* Duplicate Files Finder: a shallow embedding of                         *)
(* duplicate_files_finder.py and the properties of its two strategies.    *)
(* ===================================================================== *)

From Stdlib Require Import ZArith Strings.Byte Ascii String.
From stdpp Require Import base decidable option list strings.
From Equations Require Import Equations.

Local Open Scope Z_scope.
Local Open Scope list_scope.

(* --------------------------------------------------------------------- *)
(* Python values used by the script                                       *)
(* --------------------------------------------------------------------- *)

(** A path name is a Python [str]. *)
Abbreviation path := string.

(** File contents are Python [bytes]. *)
Abbreviation bytes := (list byte).

#[global] Instance byte_eq_decision : EqDecision byte := Byte.byte_eq_dec.

(** The only exception the script handles or lets escape is [OSError]. *)
Inductive exn : Type := OSError.

(** A call either returns a value or raises. *)
Inductive result (A : Type) : Type :=
| Ok (a : A)
| Raise (e : exn).
Arguments Ok {A} a.
Arguments Raise {A} e.

#[global] Instance exn_eq_decision : EqDecision exn.
Proof. solve_decision. Defined.

#[global] Instance result_eq_decision {A} `{EqDecision A} : EqDecision (result A).
Proof. solve_decision. Defined.

#[global] Instance result_ret : MRet result := fun A a => Ok a.

#[global] Instance result_bind : MBind result := fun A B k r =>
  match r with
  | Ok a => k a
  | Raise e => Raise e
  end.

#[global] Instance result_fmap : FMap result := fun A B f r =>
  match r with
  | Ok a => Ok (f a)
  | Raise e => Raise e
  end.

(** [try: body / except OSError: return v]. *)
Definition try_except_OSError {A} (body : result A) (v : A) : result A :=
  match body with
  | Ok a => Ok a
  | Raise OSError => Ok v
  end.

(* --------------------------------------------------------------------- *)
(* hashlib.md5 (RFC 1321) on 32-bit words held in Z                       *)
(* --------------------------------------------------------------------- *)

Module MD5.

Definition wrap (x : Z) : Z := x mod 2 ^ 32.
Definition add32 (x y : Z) : Z := wrap (x + y).
Definition not32 (x : Z) : Z := Z.lxor x 0xffffffff.
Definition rotl (x c : Z) : Z :=
  Z.lor (wrap (Z.shiftl x c)) (Z.shiftr x (32 - c)).

Definition F (x y z : Z) := Z.lor (Z.land x y) (Z.land (not32 x) z).
Definition G (x y z : Z) := Z.lor (Z.land x z) (Z.land y (not32 z)).
Definition H (x y z : Z) := Z.lxor (Z.lxor x y) z.
Definition I (x y z : Z) := Z.lxor y (Z.lor x (not32 z)).

(** Per-round left-rotation amounts. *)
Definition S : list Z :=
  [7; 12; 17; 22; 7; 12; 17; 22; 7; 12; 17; 22; 7; 12; 17; 22;
   5;  9; 14; 20; 5;  9; 14; 20; 5;  9; 14; 20; 5;  9; 14; 20;
   4; 11; 16; 23; 4; 11; 16; 23; 4; 11; 16; 23; 4; 11; 16; 23;
   6; 10; 15; 21; 6; 10; 15; 21; 6; 10; 15; 21; 6; 10; 15; 21].

(** [T i = floor (2^32 * |sin (i + 1)|)]. *)
Definition T : list Z :=
  [0xd76aa478; 0xe8c7b756; 0x242070db; 0xc1bdceee;
   0xf57c0faf; 0x4787c62a; 0xa8304613; 0xfd469501;
   0x698098d8; 0x8b44f7af; 0xffff5bb1; 0x895cd7be;
   0x6b901122; 0xfd987193; 0xa679438e; 0x49b40821;
   0xf61e2562; 0xc040b340; 0x265e5a51; 0xe9b6c7aa;
   0xd62f105d; 0x02441453; 0xd8a1e681; 0xe7d3fbc8;
   0x21e1cde6; 0xc33707d6; 0xf4d50d87; 0x455a14ed;
   0xa9e3e905; 0xfcefa3f8; 0x676f02d9; 0x8d2a4c8a;
   0xfffa3942; 0x8771f681; 0x6d9d6122; 0xfde5380c;
   0xa4beea44; 0x4bdecfa9; 0xf6bb4b60; 0xbebfbc70;
   0x289b7ec6; 0xeaa127fa; 0xd4ef3085; 0x04881d05;
   0xd9d4d039; 0xe6db99e5; 0x1fa27cf8; 0xc4ac5665;
   0xf4292244; 0x432aff97; 0xab9423a7; 0xfc93a039;
   0x655b59c3; 0x8f0ccc92; 0xffeff47d; 0x85845dd1;
   0x6fa87e4f; 0xfe2ce6e0; 0xa3014314; 0x4e0811a1;
   0xf7537e82; 0xbd3af235; 0x2ad7d2bb; 0xeb86d391].

Definition byteZ (b : byte) : Z := Z.of_N (Byte.to_N b).

(** The [n] low bytes of [x], least significant first. *)
Definition le_bytes (n : nat) (x : Z) : list Z :=
  map (fun i => Z.land (Z.shiftr x (8 * Z.of_nat i)) 0xff) (seq 0 n).

(** Append the bit 1, zeros up to 56 mod 64, and the bit length as a
    64-bit little-endian integer. *)
Definition pad (msg : bytes) : list Z :=
  let len := Z.of_nat (length msg) in
  let zeros := Z.to_nat ((55 - len) mod 64) in
  map byteZ msg ++ 0x80 :: repeat 0 zeros ++ le_bytes 8 ((8 * len) mod 2 ^ 64).

(** Little-endian 32-bit words of a byte sequence. *)
Fixpoint words (bs : list Z) : list Z :=
  match bs with
  | b0 :: b1 :: b2 :: b3 :: rest =>
      (b0 + 2 ^ 8 * b1 + 2 ^ 16 * b2 + 2 ^ 24 * b3) :: words rest
  | _ => []
  end.

Definition state : Type := Z * Z * Z * Z.

Definition init : state := (0x67452301, 0xefcdab89, 0x98badcfe, 0x10325476).

Definition step (M : list Z) (st : state) (i : nat) : state :=
  let '(a, b, c, d) := st in
  let r := (i / 16)%nat in
  let f := match r with
           | 0%nat => F b c d
           | 1%nat => G b c d
           | 2%nat => H b c d
           | _ => I b c d
           end in
  let g := match r with
           | 0%nat => i
           | 1%nat => ((5 * i + 1) mod 16)%nat
           | 2%nat => ((3 * i + 5) mod 16)%nat
           | _ => ((7 * i) mod 16)%nat
           end in
  let x := add32 (add32 a f) (add32 (nth i T 0) (nth g M 0)) in
  (d, add32 b (rotl x (nth i S 0)), b, c).

Definition compress (st : state) (M : list Z) : state :=
  let '(a0, b0, c0, d0) := st in
  let '(a, b, c, d) := fold_left (step M) (seq 0 64) st in
  (add32 a0 a, add32 b0 b, add32 c0 c, add32 d0 d).

(** Process the word stream sixteen words at a time. *)
Fixpoint blocks (n : nat) (ws : list Z) (st : state) : state :=
  match n with
  | O => st
  | Datatypes.S n' => blocks n' (drop 16 ws) (compress st (take 16 ws))
  end.

Definition digest (msg : bytes) : list Z :=
  let ws := words (pad msg) in
  let '(a, b, c, d) := blocks (length ws / 16) ws init in
  le_bytes 4 a ++ le_bytes 4 b ++ le_bytes 4 c ++ le_bytes 4 d.

Definition hex_digit (n : Z) : ascii :=
  nth (Z.to_nat n) (list_ascii_of_string "0123456789abcdef") "0"%char.

Definition hex_byte (b : Z) (tail : string) : string :=
  String (hex_digit (Z.shiftr b 4)) (String (hex_digit (Z.land b 0xf)) tail).

Definition hex (bs : list Z) : string := foldr hex_byte EmptyString bs.

(** [md5(data).hexdigest()]. *)
Definition hexdigest (msg : bytes) : string := hex (digest msg).

End MD5.

Definition bytes_of_string (s : string) : bytes := list_byte_of_string s.

(* --------------------------------------------------------------------- *)
(* The filesystem the script observes                                     *)
(* --------------------------------------------------------------------- *)

(** The fields of [os.stat_result] that the script reads.  [st_mtime] is
    only ever compared for equality, so a timestamp is an integer. *)
Record stat_result : Type := {
  st_mode : Z;
  st_size : Z;
  st_mtime : Z
}.

(** [stat.S_IFMT] and [stat.S_IFREG] (octal 0170000 and 0100000). *)
Definition S_IFMT (mode : Z) : Z := Z.land mode 0xF000.
Definition S_IFREG : Z := 0x8000.

(** A file opened with [open(p, 'rb')]: the bytes still to be read, and
    whether the read that follows them raises [OSError] instead of
    reporting end-of-stream. *)
Record file_object : Type := {
  pending : bytes;
  io_error : bool
}.

(** One unchanged filesystem state:
    - [fs_walk p] is what [walk(abspath(expanduser(p)))] yields, as
      [(root, dirs, files)] triples;
    - [fs_islink] is [os.path.islink];
    - [fs_stat] is [os.stat], which follows links and may raise;
    - [fs_open] is [open(p, 'rb')], which may raise. *)
Record filesystem : Type := {
  fs_walk : path -> list (path * list path * list path);
  fs_islink : path -> bool;
  fs_stat : path -> result stat_result;
  fs_open : path -> result file_object
}.

(** [fp.read(n)]: up to [n] bytes; [b''] at end-of-stream. *)
Definition read (n : nat) (fp : file_object) : result bytes * file_object :=
  match pending fp with
  | [] => (if io_error fp then Raise OSError else Ok [], fp)
  | _ :: _ =>
      (Ok (take n (pending fp)),
       {| pending := drop n (pending fp); io_error := io_error fp |})
  end.

(** [fp.read()]: everything up to end-of-stream. *)
Definition read_all (fp : file_object) : result bytes :=
  if io_error fp then Raise OSError else Ok (pending fp).

(** [os.path.getsize]. *)
Definition getsize (fs : filesystem) (filename : path) : result Z :=
  st ← fs_stat fs filename; mret (st_size st).

(** [os.path.join] on POSIX. *)
Definition join (a b : path) : path :=
  if String.prefix "/" b then b
  else if bool_decide (a = EmptyString) then b
  else if bool_decide (String.get (String.length a - 1) a = Some "/"%char)
       then (a ++ b)%string
       else (a ++ "/" ++ b)%string.

(* --------------------------------------------------------------------- *)
(* Waypoint 8: compare_files                                              *)
(* --------------------------------------------------------------------- *)

Definition BUFSIZE : nat := 8 * 1024.

(** Keeps the equation [a = b] when a [with] clause matches on [a]. *)
Definition inspect {A} (a : A) : {b | a = b} := exist _ a eq_refl.

(** The [while True] loop of [_do_compare]. *)
Equations? compare_loop (bufsize : nat) (fp1 fp2 : file_object) : result bool
  by wf (length (pending fp1)) lt :=
  compare_loop bufsize fp1 fp2 with inspect (read bufsize fp1) := {
    | @exist (Raise e, _) _ := Raise e
    | @exist (Ok b1, fp1') Hr1 with read bufsize fp2 := {
      | (Raise e, _) := Raise e
      | (Ok b2, fp2') with decide (b1 ≠ b2) := {
        | left _ := Ok false
        | right _ with decide (b1 = []) := {
          | left _ := Ok true
          | right Hne := compare_loop bufsize fp1' fp2' } } } }.
Proof.
  unfold read in Hr1. destruct (pending fp1) as [|x r] eqn:Hp.
  - destruct (io_error fp1); inversion Hr1; subst. by destruct Hne.
  - inversion Hr1; subst; clear Hr1. cbn [pending].
    destruct bufsize as [|n]; [by destruct Hne|].
    cbn [drop length]. rewrite length_drop. lia.
Qed.

Definition _sig (st : stat_result) : Z * Z * Z :=
  (S_IFMT (st_mode st), st_size st, st_mtime st).

Definition _do_compare (fs : filesystem) (file1 file2 : path) : result bool :=
  let bufsize := BUFSIZE in
  try_except_OSError
    (fp1 ← fs_open fs file1;
     fp2 ← fs_open fs file2;
     compare_loop bufsize fp1 fp2)
    false.

Definition compare_files (fs : filesystem) (f1 f2 : path) (shallow : bool)
  : result bool :=
  s1 ← _sig <$> fs_stat fs f1;
  s2 ← _sig <$> fs_stat fs f2;
  if bool_decide (s1.1.1 ≠ S_IFREG) || bool_decide (s2.1.1 ≠ S_IFREG)
  then mret false
  else if shallow && bool_decide (s1 = s2) then mret true
  else if bool_decide (s1.1.2 ≠ s2.1.2) then mret false
  else _do_compare fs f1 f2.

(* --------------------------------------------------------------------- *)
(* Waypoint 2: scan_files                                                 *)
(* --------------------------------------------------------------------- *)

Definition scan_files (fs : filesystem) (p : path) : list path :=
  filter (λ x, ¬ fs_islink fs x)
         ('(root, _, files) ← fs_walk fs p; f ← files; [join root f]).

(* --------------------------------------------------------------------- *)
(* Python dicts of lists, in insertion order                              *)
(* --------------------------------------------------------------------- *)

(** [groups.setdefault(k, []).append(x)] on a dict kept as the list of
    its items in insertion order. *)
Fixpoint setdefault_append {K} `{EqDecision K}
    (groups : list (K * list path)) (k : K) (x : path) : list (K * list path) :=
  match groups with
  | [] => [(k, [x])]
  | (k', v) :: rest =>
      if decide (k' = k) then (k', v ++ [x]) :: rest
      else (k', v) :: setdefault_append rest k x
  end.

(** [[group for group in groups.values() if len(group) > 1]]. *)
Definition at_least_two {K} (groups : list (K * list path)) : list (list path) :=
  filter (λ group, (1 < length group)%nat) groups.*2.

(* --------------------------------------------------------------------- *)
(* Waypoint 3: group_files_by_size                                        *)
(* --------------------------------------------------------------------- *)

Fixpoint size_loop (fs : filesystem) (file_path_names : list path)
    (groups : list (Z * list path)) : result (list (Z * list path)) :=
  match file_path_names with
  | [] => mret groups
  | filename :: rest =>
      size ← getsize fs filename;
      size_loop fs rest
        (if bool_decide (size ≠ 0) then setdefault_append groups size filename
         else groups)
  end.

Definition group_files_by_size (fs : filesystem) (file_path_names : list path)
  : result (list (list path)) :=
  groups ← size_loop fs file_path_names [];
  mret (at_least_two groups).

(* --------------------------------------------------------------------- *)
(* Waypoints 4 and 5: get_file_checksum, group_files_by_checksum          *)
(* --------------------------------------------------------------------- *)

(** Returns a [str], or [None] when the file cannot be read. *)
Definition get_file_checksum (fs : filesystem) (file_path : path)
  : result (option string) :=
  try_except_OSError
    (file ← fs_open fs file_path;
     data ← read_all file;
     mret (Some (MD5.hexdigest data)))
    None.

(** Truth value of an [Optional[str]]. *)
Definition truthy (checksum : option string) : bool :=
  match checksum with
  | Some c => bool_decide (c ≠ EmptyString)
  | None => false
  end.

Fixpoint checksum_loop (fs : filesystem) (file_path_names : list path)
    (groups : list (string * list path)) : result (list (string * list path)) :=
  match file_path_names with
  | [] => mret groups
  | file_path :: rest =>
      checksum ← get_file_checksum fs file_path;
      checksum_loop fs rest
        (match checksum with
         | Some c =>
             if truthy checksum then setdefault_append groups c file_path
             else groups
         | None => groups
         end)
  end.

Definition group_files_by_checksum (fs : filesystem) (file_path_names : list path)
  : result (list (list path)) :=
  groups ← checksum_loop fs file_path_names [];
  mret (at_least_two groups).

(* --------------------------------------------------------------------- *)
(* Waypoint 6: find_duplicate_files                                       *)
(* --------------------------------------------------------------------- *)

Fixpoint extend_loop (fs : filesystem) (size_groups groups : list (list path))
  : result (list (list path)) :=
  match size_groups with
  | [] => mret groups
  | group :: rest =>
      found ← group_files_by_checksum fs group;
      extend_loop fs rest (groups ++ found)
  end.

Definition find_duplicate_files (fs : filesystem) (file_path_names : list path)
  : result (list (list path)) :=
  size_groups ← group_files_by_size fs file_path_names;
  extend_loop fs size_groups [].

(* --------------------------------------------------------------------- *)
(* find_duplicate_files_by_cmp                                            *)
(* --------------------------------------------------------------------- *)

(** [list(set(a) - set(b))]: the elements of [a] that are not in [b],
    each once, in whatever order the interpreter's set iteration gives.
    The order is not fixed by the language, so it is a parameter of a
    run. *)
Record set_order : Type := {
  list_of_difference : list path → list path → list path;
  list_of_difference_NoDup a b : NoDup (list_of_difference a b);
  list_of_difference_elem a b x :
    x ∈ list_of_difference a b ↔ x ∈ a ∧ x ∉ b
}.

(** The inner [for filename in file_path_names[1:]] loop. *)
Fixpoint collect_loop (fs : filesystem) (current : path) (others : list path)
    (group_duplicate_files : list path) : result (list path) :=
  match others with
  | [] => mret group_duplicate_files
  | filename :: rest =>
      same ← compare_files fs current filename true;
      collect_loop fs current rest
        (if same : bool then group_duplicate_files ++ [filename]
         else group_duplicate_files)
  end.

(** The [while file_path_names] loop.  It ends because [current] is in
    the collected group, which is taken out of the pool. *)
Equations? by_cmp_loop (so : set_order) (fs : filesystem)
    (file_path_names : list path) (groups : list (list path))
  : result (list (list path)) by wf (length file_path_names) lt :=
  by_cmp_loop so fs [] groups := Ok groups;
  by_cmp_loop so fs (current :: others) groups
    with inspect (collect_loop fs current others [current]) := {
    | @exist (Raise e) _ := Raise e
    | @exist (Ok group_duplicate_files) Hc :=
        by_cmp_loop so fs
          (list_of_difference so (current :: others) group_duplicate_files)
          (if bool_decide (1 < length group_duplicate_files)%nat
           then groups ++ [group_duplicate_files]
           else groups) }.
Proof.
  assert (Hin : current ∈ group_duplicate_files).
  { clear by_cmp_loop.
    assert (Hext : ∀ g, current ∈ g →
              collect_loop fs current others g = Ok group_duplicate_files →
              current ∈ group_duplicate_files).
    { clear Hc. induction others as [|f rest IH]; intros g Hg Hc.
      - by inversion Hc; subst.
      - cbn in Hc. destruct (compare_files fs current f true) as [b|e];
          cbn in Hc; [|done].
        eapply IH; [|exact Hc].
        destruct b; [apply elem_of_app; by left|done]. }
    apply (Hext [current]); [by left|done]. }
  set (d := list_of_difference so (current :: others) group_duplicate_files).
  assert (Hsub : current :: d ⊆+ current :: others).
  { apply NoDup_submseteq.
    - constructor; [|apply list_of_difference_NoDup].
      intros [_ Hn]%list_of_difference_elem. done.
    - intros y [->|Hy]%elem_of_cons; [left|].
      by apply list_of_difference_elem in Hy as [Hy _]. }
  apply submseteq_length in Hsub. cbn in Hsub. lia.
Qed.

Definition find_duplicate_files_by_cmp (so : set_order) (fs : filesystem)
    (file_path_names : list path) : result (list (list path)) :=
  by_cmp_loop so fs file_path_names [].

(** The [while file_path_names] loop stopped after at most [n] passes
    through its body: [None] when the pool is not empty by then. *)
Fixpoint by_cmp_iterations (n : nat) (so : set_order) (fs : filesystem)
    (file_path_names : list path) (groups : list (list path))
  : option (result (list (list path))) :=
  match file_path_names, n with
  | [], _ => Some (Ok groups)
  | _ :: _, O => None
  | current :: others, S n' =>
      match collect_loop fs current others [current] with
      | Raise e => Some (Raise e)
      | Ok group_duplicate_files =>
          by_cmp_iterations n' so fs
            (list_of_difference so (current :: others) group_duplicate_files)
            (if bool_decide (1 < length group_duplicate_files)%nat
             then groups ++ [group_duplicate_files]
             else groups)
      end
  end.

(* --------------------------------------------------------------------- *)
(* Waypoint 7 and main                                                    *)
(* --------------------------------------------------------------------- *)

(** The [Namespace] that [parse_arguments] returns: [args.path] and
    [args.compare]. *)
Record args : Type := {
  args_path : path;
  args_compare : bool
}.

(** [print(dumps(result))], as the text written to the standard output;
    [dumps] stands for [json.dumps]. *)
Definition print_output (dumps : list (list path) → string)
    (result : list (list path)) : string :=
  (dumps result ++ String "010"%char EmptyString)%string.

(** [main], from the parsed arguments on: the text it prints, unless an
    [OSError] escapes. *)
Definition main (dumps : list (list path) → string) (so : set_order)
    (fs : filesystem) (a : args) : result string :=
  let file_path_names := scan_files fs (args_path a) in
  if args_compare a
  then groups ← find_duplicate_files_by_cmp so fs file_path_names;
       mret (print_output dumps groups)
  else groups ← find_duplicate_files fs file_path_names;
       mret (print_output dumps groups).

(* --------------------------------------------------------------------- *)
(* The grouping loops as folds, and what a dict holds under a key          *)
(* --------------------------------------------------------------------- *)

(** The dict a grouping loop builds when [key x] is the key under which
    [x] is filed, and [None] when [x] is skipped. *)
Definition group_by {K} `{EqDecision K} (key : path → option K)
    (l : list path) (groups : list (K * list path)) : list (K * list path) :=
  foldl (λ d x, match key x with
                | Some k => setdefault_append d k x
                | None => d
                end) groups l.

(** [groups.get(k, [])]. *)
Fixpoint dict_get {K} `{EqDecision K} (groups : list (K * list path)) (k : K)
  : list path :=
  match groups with
  | [] => []
  | (k', v) :: rest => if decide (k' = k) then v else dict_get rest k
  end.

(** The distinct elements of a list, in the order in which each is
    first met. *)
Fixpoint first_occurrences {A} `{EqDecision A} (l : list A) : list A :=
  match l with
  | [] => []
  | x :: rest => x :: filter (λ y, y ≠ x) (first_occurrences rest)
  end.

(** The key [group_files_by_size] files a path under. *)
Definition size_key (fs : filesystem) (p : path) : option Z :=
  match getsize fs p with
  | Ok size => if bool_decide (size ≠ 0) then Some size else None
  | Raise _ => None
  end.

(** The key [group_files_by_checksum] files a path under. *)
Definition checksum_key (fs : filesystem) (p : path) : option string :=
  match fs_open fs p with
  | Ok file => if io_error file then None else Some (MD5.hexdigest (pending file))
  | Raise _ => None
  end.

(** No path occurs in two groups of the list. *)
Fixpoint disjoint_list (groups : list (list path)) : Prop :=
  match groups with
  | [] => True
  | g :: rest => Forall (λ g', ∀ p, p ∈ g → p ∉ g') rest ∧ disjoint_list rest
  end.

(* --------------------------------------------------------------------- *)
(* Vocabulary of the statements                                           *)
(* --------------------------------------------------------------------- *)

(** [stat] reports a regular file. *)
Definition is_regular (st : stat_result) : Prop := S_IFMT (st_mode st) = S_IFREG.

(** The file opens and delivers exactly [content], then end-of-stream. *)
Definition readable (fs : filesystem) (p : path) (content : bytes) : Prop :=
  fs_open fs p = Ok {| pending := content; io_error := false |}.

(** An I/O failure inside the byte comparison: one of the two [open]
    calls raises, or a [read] of the lockstep loop does. *)
Definition comparison_io_failure (fs : filesystem) (f1 f2 : path) : Prop :=
  fs_open fs f1 = Raise OSError ∨
  (∃ fp1, fs_open fs f1 = Ok fp1 ∧ fs_open fs f2 = Raise OSError) ∨
  (∃ fp1 fp2, fs_open fs f1 = Ok fp1 ∧ fs_open fs f2 = Ok fp2 ∧
     compare_loop BUFSIZE fp1 fp2 = Raise OSError).

(** [compare_files(x, y)], with its default [shallow=True], returned
    [True]. *)
Definition same (fs : filesystem) (x y : path) : Prop :=
  compare_files fs x y true = Ok true.

#[global] Instance same_decision fs x y : Decision (same fs x y).
Proof. unfold same. apply _. Defined.

(** The value of [group_duplicate_files] after the inner loop. *)
Definition cluster (fs : filesystem) (current : path) (others : list path)
  : list path :=
  current :: filter (λ f, same fs current f) others.

(** [g] is the class of [x] in the pool [l]: [x] itself and the files
    of the pool that compare equal to it. *)
Definition class_of (fs : filesystem) (l : list path) (x : path)
    (g : list path) : Prop :=
  ∀ y, y ∈ g ↔ y ∈ l ∧ (y = x ∨ same fs x y).

(** [compare_files] is transitive on the pool [l]. *)
Definition transitive_on (fs : filesystem) (l : list path) : Prop :=
  ∀ x y z, x ∈ l → y ∈ l → z ∈ l → same fs x y → same fs y z → same fs x z.

#[global] Instance transitive_on_decision fs l : Decision (transitive_on fs l).
Proof.
  destruct (decide
    (Forall (λ x, Forall (λ y, Forall (λ z,
       same fs x y → same fs y z → same fs x z) l) l) l)) as [Hall|Hnot];
    [left|right].
  - intros x y z Hx Hy Hz.
    rewrite Forall_forall in Hall. specialize (Hall x Hx).
    rewrite Forall_forall in Hall. specialize (Hall y Hy).
    rewrite Forall_forall in Hall. exact (Hall z Hz).
  - intros Htr. apply Hnot.
    apply Forall_forall; intros x Hx. apply Forall_forall; intros y Hy.
    apply Forall_forall; intros z Hz. by apply Htr.
Defined.

(** What a run on a duplicate-free pool returns: only classes with a
    second member, and every such class. *)
Definition classes_of (fs : filesystem) (l : list path)
    (gs : list (list path)) : Prop :=
  (∀ g, g ∈ gs → ∃ x y, x ∈ l ∧ class_of fs l x g ∧ y ∈ g ∧ y ≠ x) ∧
  (∀ x y, x ∈ l → y ∈ l → y ≠ x → same fs x y →
     ∃ g, g ∈ gs ∧ class_of fs l x g).

(** Reading the content of [p] fails: [open] raises, or the read does. *)
Definition read_fails (fs : filesystem) (p : path) : Prop :=
  match fs_open fs p with
  | Ok file => read_all file = Raise OSError
  | Raise _ => True
  end.

#[global] Instance read_fails_decision fs p : Decision (read_fails fs p).
Proof. unfold read_fails. destruct (fs_open fs p); apply _. Defined.

(** The bytes [p] delivers when opened, and [b''] when it does not
    open. *)
Definition content (fs : filesystem) (p : path) : bytes :=
  match fs_open fs p with
  | Ok file => pending file
  | Raise _ => []
  end.

(** [p] is a regular file that can be read to end-of-stream, and its
    reported size is the length of what it holds. *)
Definition ordinary (fs : filesystem) (p : path) : Prop :=
  ∃ st, fs_stat fs p = Ok st ∧ is_regular st ∧
        st_size st = Z.of_nat (length (content fs p)) ∧
        readable fs p (content fs p).

(** [p] is a member of one of the groups of a result. *)
Definition grouped (p : path) (groups : list (list path)) : Prop :=
  ∃ group, group ∈ groups ∧ p ∈ group.

(** Two groups hold the same set of paths. *)
Definition same_paths (g1 g2 : list path) : Prop := ∀ p, p ∈ g1 ↔ p ∈ g2.

(** Two results hold the same groups, as sets of paths, in any order. *)
Definition same_groups (r1 r2 : list (list path)) : Prop :=
  (∀ g1, g1 ∈ r1 → ∃ g2, g2 ∈ r2 ∧ same_paths g1 g2) ∧
  (∀ g2, g2 ∈ r2 → ∃ g1, g1 ∈ r1 ∧ same_paths g1 g2).

(** Groups at different positions of a result share no path. *)
Definition pairwise_disjoint (groups : list (list path)) : Prop :=
  ∀ i j g1 g2, i ≠ j → groups !! i = Some g1 → groups !! j = Some g2 →
    ∀ p, p ∈ g1 → p ∉ g2.

(* --------------------------------------------------------------------- *)
(* Concrete filesystems and set orders for the worked examples            *)
(* --------------------------------------------------------------------- *)

Module Fixture.

(** What the filesystem holds under one path name. *)
Record entry : Type := {
  e_islink : bool;
  e_stat : result stat_result;
  e_open : result file_object
}.

Fixpoint lookup_entry (files : list (path * entry)) (p : path) : option entry :=
  match files with
  | [] => None
  | (q, e) :: rest => if decide (q = p) then Some e else lookup_entry rest p
  end.

(** A filesystem with the given directory listing and entries; any
    other path name does not exist. *)
Definition mkfs (tree : list (path * list path * list path))
    (files : list (path * entry)) : filesystem :=
  {| fs_walk := λ _, tree;
     fs_islink := λ p, from_option e_islink false (lookup_entry files p);
     fs_stat := λ p, from_option e_stat (Raise OSError) (lookup_entry files p);
     fs_open := λ p, from_option e_open (Raise OSError) (lookup_entry files p) |}.

(** A readable regular file (mode 0100644). *)
Definition regular (content : bytes) (mtime : Z) : entry :=
  {| e_islink := false;
     e_stat := Ok {| st_mode := 0x81A4;
                     st_size := Z.of_nat (length content);
                     st_mtime := mtime |};
     e_open := Ok {| pending := content; io_error := false |} |}.

(** A regular file that [stat] sees but [open] refuses (mode 0100000). *)
Definition unreadable (size mtime : Z) : entry :=
  {| e_islink := false;
     e_stat := Ok {| st_mode := 0x8000; st_size := size; st_mtime := mtime |};
     e_open := Raise OSError |}.

(** A regular file whose reads fail after [content] was delivered. *)
Definition failing (content : bytes) (mtime : Z) : entry :=
  {| e_islink := false;
     e_stat := Ok {| st_mode := 0x81A4;
                     st_size := Z.of_nat (length content);
                     st_mtime := mtime |};
     e_open := Ok {| pending := content; io_error := true |} |}.

(** A symbolic link to [target]: [stat] and [open] follow it. *)
Definition symlink_to (target : entry) : entry :=
  {| e_islink := true; e_stat := e_stat target; e_open := e_open target |}.

(** Set iteration that happens to keep the order of first occurrence. *)
Program Definition first_seen : set_order :=
  {| list_of_difference a b := list_difference (remove_dups a) b |}.
Next Obligation.
  intros. apply NoDup_list_difference, NoDup_remove_dups.
Qed.
Next Obligation.
  intros. rewrite list_elem_of_difference, elem_of_remove_dups. done.
Qed.

(** Set iteration that happens to give the opposite order. *)
Program Definition last_seen : set_order :=
  {| list_of_difference a b := reverse (list_difference (remove_dups a) b) |}.
Next Obligation.
  intros. rewrite reverse_Permutation.
  apply NoDup_list_difference, NoDup_remove_dups.
Qed.
Next Obligation.
  intros.
  rewrite elem_of_reverse, list_elem_of_difference, elem_of_remove_dups. done.
Qed.

Definition hexval (c : ascii) : N :=
  let n := N_of_ascii c in
  if (n <? 58)%N then (n - 48)%N else (n - 87)%N.

(** [bytes.fromhex]. *)
Fixpoint fromhex (s : string) : bytes :=
  match s with
  | String h (String l rest) =>
      match Byte.of_N (16 * hexval h + hexval l) with
      | Some b => b :: fromhex rest
      | None => fromhex rest
      end
  | _ => []
  end.

Definition xs (n : Z) : bytes := repeat "x"%byte (Z.to_nat n).

(** Files of 10000 bytes, so that a comparison takes two chunks:
    [a] and [b] hold the same bytes with different timestamps, [c]
    differs from [a] in its last byte only and shares its timestamp;
    [u] cannot be opened, [w] fails while being read, [gone] does not
    exist. *)
Definition fs_compare : filesystem :=
  mkfs []
    [("a", regular (xs 10000) 1);
     ("b", regular (xs 10000) 2);
     ("c", regular (xs 9999 ++ ["y"%byte]) 1);
     ("u", unreadable 10000 3);
     ("w", failing (xs 10000) 4)]%string.

(** The directory [/r] of the specification's scenario: [A] and [B]
    hold "x", [C] holds "y", [D] is empty; [L] is a link to [A]. *)
Definition fs_scenario : filesystem :=
  mkfs [("/r", [], ["A"; "B"; "C"; "D"; "L"])]
    [("/r/A", regular (bytes_of_string "x") 1);
     ("/r/B", regular (bytes_of_string "x") 2);
     ("/r/C", regular (bytes_of_string "y") 3);
     ("/r/D", regular [] 4);
     ("/r/L", symlink_to (regular (bytes_of_string "x") 1))]%string.

(** A directory holding two empty files written at the same time. *)
Definition fs_empty_pair : filesystem :=
  mkfs [("/r", [], ["D"; "E"])]
    [("/r/D", regular [] 4); ("/r/E", regular [] 4)]%string.

(** Two 64-byte messages with the same MD5 digest. *)
Definition collision_1 : bytes :=
  fromhex ("4dc968ff0ee35c209572d4777b721587d36fa7b21bdc56b74a3dc0783e7b9518"
        ++ "afbfa200a8284bf36e8e4b55b35f427593d849676da0d1555d8360fb5f07fea2").
Definition collision_2 : bytes :=
  fromhex ("4dc968ff0ee35c209572d4777b721587d36fa7b21bdc56b74a3dc0783e7b9518"
        ++ "afbfa202a8284bf36e8e4b55b35f427593d849676da0d1d55d8360fb5f07fea2").

(** Two empty files and two files holding the colliding messages. *)
Definition fs_collide : filesystem :=
  mkfs []
    [("e1", regular [] 1); ("e2", regular [] 2);
     ("m1", regular collision_1 3); ("m2", regular collision_2 4)]%string.

(** [A] and [B] have the same size and timestamp but different bytes;
    [C] holds the bytes of [B] with another timestamp; [D] is alone. *)
Definition fs_chain : filesystem :=
  mkfs []
    [("D", regular (bytes_of_string "zz") 0);
     ("A", regular (bytes_of_string "aaa") 1);
     ("B", regular (bytes_of_string "bbb") 1);
     ("C", regular (bytes_of_string "bbb") 2)]%string.

(** [U] is alone; [P1] and [P2] hold the same bytes, and so do [Q1]
    and [Q2]. *)
Definition fs_pairs : filesystem :=
  mkfs []
    [("U", regular (bytes_of_string "u") 0);
     ("P1", regular (bytes_of_string "pp") 1);
     ("P2", regular (bytes_of_string "pp") 2);
     ("Q1", regular (bytes_of_string "qqq") 3);
     ("Q2", regular (bytes_of_string "qqq") 4)]%string.

(** A directory whose only entry is a symbolic link to a file. *)
Definition fs_links : filesystem :=
  mkfs [("/r", [], ["L"])]
    [("/r/L", symlink_to (regular (bytes_of_string "x") 1))]%string.

End Fixture.

(* ===================================================================== *)
(* Properties                                                             *)
(* ===================================================================== *)

(* --------------------------------------------------------------------- *)
(* The md5 model agrees with the RFC 1321 test suite                      *)
(* --------------------------------------------------------------------- *)

Example md5_empty :
  MD5.hexdigest [] = "d41d8cd98f00b204e9800998ecf8427e"%string.
Proof. vm_compute. reflexivity. Qed.

Example md5_a :
  MD5.hexdigest (bytes_of_string "a") = "0cc175b9c0f1b6a831c399e269772661"%string.
Proof. vm_compute. reflexivity. Qed.

Example md5_abc :
  MD5.hexdigest (bytes_of_string "abc") = "900150983cd24fb0d6963f7d28e17f72"%string.
Proof. vm_compute. reflexivity. Qed.

Example md5_two_blocks :
  MD5.hexdigest (bytes_of_string
    "12345678901234567890123456789012345678901234567890123456789012345678901234567890")
  = "57edf4a22be3c955ac49da2e2107b67a"%string.
Proof. vm_compute. reflexivity. Qed.

Lemma hexdigest_nonempty (msg : bytes) : MD5.hexdigest msg ≠ EmptyString.
Proof.
  unfold MD5.hexdigest, MD5.digest.
  destruct (MD5.blocks _ _ _) as [[[a b] c] d]. discriminate.
Qed.

(* --------------------------------------------------------------------- *)
(* The result monad                                                       *)
(* --------------------------------------------------------------------- *)

Lemma bind_Ok {A B} (r : result A) (k : A → result B) (b : B) :
  r ≫= k = Ok b ↔ ∃ a, r = Ok a ∧ k a = Ok b.
Proof.
  destruct r as [a|e]; cbn; split.
  - eauto.
  - by intros (a' & [= <-] & Hk).
  - done.
  - by intros (a' & [=] & _).
Qed.

Lemma try_except_returns {A} (body : result A) (v : A) :
  ∃ a, try_except_OSError body v = Ok a.
Proof. destruct body as [a|[]]; cbn; eauto. Qed.

(* --------------------------------------------------------------------- *)
(* Reading in chunks                                                      *)
(* --------------------------------------------------------------------- *)

Lemma read_Ok n fp b fp' :
  read n fp = (Ok b, fp') →
  b = take n (pending fp) ∧ pending fp' = drop n (pending fp) ∧
  io_error fp' = io_error fp ∧ (pending fp = [] → io_error fp = false).
Proof.
  unfold read. destruct (pending fp) as [|x r] eqn:Hp.
  - destruct (io_error fp) eqn:He; intros [= <- <-].
    rewrite Hp, He. by rewrite take_nil, drop_nil.
  - intros [= <- <-]. cbn. by repeat split.
Qed.

Lemma read_Raise n fp e fp' :
  read n fp = (Raise e, fp') → pending fp = [] ∧ io_error fp = true.
Proof.
  unfold read. destruct (pending fp) as [|x r]; [|done].
  by destruct (io_error fp).
Qed.

(** A read of a positive number of bytes is empty only at end-of-stream. *)
Lemma take_nil_inv {A} n (l : list A) : (0 < n)%nat → take n l = [] → l = [].
Proof. intros Hn. destruct n; [lia|]. by destruct l. Qed.

Local Ltac rew_io :=
  repeat match goal with
    | H : io_error _ = true |- _ => rewrite H; clear H
    | H : io_error _ = false |- _ => rewrite H; clear H
    end.

(** Whatever makes the lockstep loop stop, [_do_compare] answers [True]
    exactly when both streams deliver the same bytes and end cleanly. *)
Lemma compare_loop_spec bufsize fp1 fp2 :
  (0 < bufsize)%nat →
  try_except_OSError (compare_loop bufsize fp1 fp2) false
  = Ok (bool_decide (pending fp1 = pending fp2)
        && negb (io_error fp1) && negb (io_error fp2)).
Proof.
  intros Hpos. funelim (compare_loop bufsize fp1 fp2).
  all: repeat match goal with
         | H : sigmaI _ _ _ = _ |- _ => clear H
         | H : decide _ = _ |- _ => clear H
         | H : _ = compare_loop _ _ _ |- _ => clear H
         | H : ¬ _ ≠ _ |- _ => apply dec_stable in H
         | H : read _ _ = (Ok _, _) |- _ =>
             apply read_Ok in H as (-> & ? & ? & ?)
         | H : read _ _ = (Raise _, _) |- _ =>
             apply read_Raise in H as [? ?]
         | e : exn |- _ => destruct e
         end.
  - cbn. f_equal. rew_io. by destruct (bool_decide _).
  - cbn. f_equal. rew_io. by rewrite andb_false_r.
  - cbn. f_equal. rewrite bool_decide_eq_false_2; [done|]. congruence.
  - assert (Hp1 : pending fp1 = []) by eauto using take_nil_inv.
    assert (Hp2 : pending fp2 = []).
    { apply (take_nil_inv bufsize); [done|]. congruence. }
    repeat match goal with
      | H : pending ?fp = [] → _, H' : pending ?fp = [] |- _ =>
          specialize (H H')
      end.
    cbn. rew_io. by rewrite Hp1, Hp2.
  - match goal with
    | IH : _ → try_except_OSError _ _ = _ |- _ => rewrite IH by done
    end.
    repeat match goal with
      | H : pending _ = drop _ _ |- _ => rewrite H; clear H
      | H : io_error _ = io_error _ |- _ => rewrite H; clear H
      end.
    do 3 f_equal. apply bool_decide_ext. split; [|by intros ->].
    intros Hd. rewrite <- (take_drop bufsize (pending fp1)).
    rewrite <- (take_drop bufsize (pending fp2)). congruence.
Qed.

Lemma BUFSIZE_pos : (0 < BUFSIZE)%nat.
Proof. unfold BUFSIZE. lia. Qed.

(** [_do_compare] never raises, and is [True] exactly when both files
    open, deliver the same bytes, and end without a failed read. *)
Lemma _do_compare_spec fs file1 file2 :
  _do_compare fs file1 file2
  = Ok match fs_open fs file1, fs_open fs file2 with
       | Ok fp1, Ok fp2 =>
           bool_decide (pending fp1 = pending fp2)
           && negb (io_error fp1) && negb (io_error fp2)
       | _, _ => false
       end.
Proof.
  unfold _do_compare.
  destruct (fs_open fs file1) as [fp1|[]]; [|done].
  destruct (fs_open fs file2) as [fp2|[]]; [|done].
  apply compare_loop_spec, BUFSIZE_pos.
Qed.

(** The loop itself raises only when one of the streams has a failing
    read. *)
Lemma compare_loop_Raise bufsize fp1 fp2 e :
  compare_loop bufsize fp1 fp2 = Raise e →
  io_error fp1 = true ∨ io_error fp2 = true.
Proof.
  funelim (compare_loop bufsize fp1 fp2); try done.
  all: repeat match goal with
         | H : sigmaI _ _ _ = _ |- _ => clear H
         | H : decide _ = _ |- _ => clear H
         | H : _ = compare_loop _ _ _ |- _ => clear H
         | H : read _ _ = (Ok _, _) |- _ =>
             apply read_Ok in H as (-> & ? & ? & ?)
         | H : read _ _ = (Raise _, _) |- _ =>
             apply read_Raise in H as [? ?]
         end.
  - by left.
  - by right.
  - intros Hr.
    match goal with IH : ∀ e, _ → _ ∨ _ |- _ => destruct (IH _ Hr) as [Hi|Hi] end;
      [left|right]; congruence.
Qed.

Lemma compare_loop_healthy bufsize c1 c2 :
  (0 < bufsize)%nat →
  compare_loop bufsize {| pending := c1; io_error := false |}
                       {| pending := c2; io_error := false |}
  = Ok (bool_decide (c1 = c2)).
Proof.
  intros Hpos.
  pose proof (compare_loop_spec bufsize
     {| pending := c1; io_error := false |}
     {| pending := c2; io_error := false |} Hpos) as Hs.
  cbn in Hs. rewrite !andb_true_r in Hs.
  destruct (compare_loop _ _ _) as [b|e] eqn:Hl; [done|].
  by apply compare_loop_Raise in Hl as [Hl|Hl].
Qed.

(** One pass of the loop on two streams without failing reads: a pair
    of chunks that differ ends it with [False], a pair of empty chunks
    ends it with [True], and otherwise both streams move on by one
    chunk. *)
Lemma compare_loop_chunks bufsize c1 c2 :
  (0 < bufsize)%nat →
  compare_loop bufsize {| pending := c1; io_error := false |}
                       {| pending := c2; io_error := false |}
  = if decide (take bufsize c1 ≠ take bufsize c2) then Ok false
    else if decide (take bufsize c1 = []) then Ok true
    else compare_loop bufsize
           {| pending := drop bufsize c1; io_error := false |}
           {| pending := drop bufsize c2; io_error := false |}.
Proof.
  intros Hpos. rewrite !compare_loop_healthy by done.
  destruct (decide (take bufsize c1 ≠ take bufsize c2)) as [Hne|Heq].
  - rewrite bool_decide_eq_false_2; [done|]. by intros ->.
  - apply dec_stable in Heq.
    destruct (decide (take bufsize c1 = [])) as [Hnil|Hcons].
    + rewrite bool_decide_eq_true_2; [done|].
      rewrite (take_nil_inv bufsize c1), (take_nil_inv bufsize c2);
        [done..|congruence|done|done].
    + f_equal. apply bool_decide_ext. split; [by intros ->|].
      intros Hd. rewrite <- (take_drop bufsize c1), <- (take_drop bufsize c2).
      congruence.
Qed.

(** [compare_files] once both [stat] calls have returned. *)
Lemma compare_files_stat_Ok fs f1 f2 shallow st1 st2 :
  fs_stat fs f1 = Ok st1 → fs_stat fs f2 = Ok st2 →
  compare_files fs f1 f2 shallow
  = if bool_decide (S_IFMT (st_mode st1) ≠ S_IFREG)
       || bool_decide (S_IFMT (st_mode st2) ≠ S_IFREG)
    then Ok false
    else if shallow && bool_decide (_sig st1 = _sig st2) then Ok true
    else if bool_decide (st_size st1 ≠ st_size st2) then Ok false
    else _do_compare fs f1 f2.
Proof. intros H1 H2. unfold compare_files. by rewrite H1, H2. Qed.

Lemma compare_files_regular fs f1 f2 shallow st1 st2 :
  fs_stat fs f1 = Ok st1 → fs_stat fs f2 = Ok st2 →
  is_regular st1 → is_regular st2 →
  compare_files fs f1 f2 shallow
  = if shallow && bool_decide (_sig st1 = _sig st2) then Ok true
    else if bool_decide (st_size st1 ≠ st_size st2) then Ok false
    else _do_compare fs f1 f2.
Proof.
  intros H1 H2 R1 R2. rewrite (compare_files_stat_Ok _ _ _ _ _ _ H1 H2).
  unfold is_regular in *.
  by rewrite !bool_decide_eq_false_2 by (intros Hn; by apply Hn).
Qed.



(** C6. Two regular files with the same size and the same modification
    time whose contents differ (whenever both open, they hold different
    bytes): [compare_files] with [shallow=True] returns [True], the
    documented false positive, and with [shallow=False] returns [False]. *)
Theorem compare_files_shallow_false_positive fs A B stA stB :
  fs_stat fs A = Ok stA → fs_stat fs B = Ok stB →
  is_regular stA → is_regular stB →
  st_size stA = st_size stB → st_mtime stA = st_mtime stB →
  (∀ fpA fpB, fs_open fs A = Ok fpA → fs_open fs B = Ok fpB →
     pending fpA ≠ pending fpB) →
  compare_files fs A B true = Ok true ∧ compare_files fs A B false = Ok false.
Proof.
  intros HA HB RA RB Hsize Hmtime Hdiff.
  rewrite !(compare_files_regular _ _ _ _ _ _ HA HB RA RB). split.
  - rewrite bool_decide_eq_true_2; [done|].
    unfold _sig. unfold is_regular in *. congruence.
  - cbn [andb]. rewrite bool_decide_eq_false_2 by (intros Hn; by apply Hn).
    rewrite _do_compare_spec. f_equal.
    destruct (fs_open fs A) as [fpA|]; [|done].
    destruct (fs_open fs B) as [fpB|]; [|done].
    by rewrite bool_decide_eq_false_2 by eauto.
Qed.

Lemma compare_files_shallow_false_positive_witness :
  compare_files Fixture.fs_compare "a" "c" true = Ok true ∧
  compare_files Fixture.fs_compare "a" "c" false = Ok false.
Proof.
  apply (compare_files_shallow_false_positive Fixture.fs_compare "a" "c"
           {| st_mode := 0x81A4; st_size := 10000; st_mtime := 1 |}
           {| st_mode := 0x81A4; st_size := 10000; st_mtime := 1 |});
    try (vm_compute; reflexivity).
  intros fpA fpB [= <-] [= <-]. vm_compute. discriminate.
Defined.

(** C9. [compare_files] raises [OSError] exactly when the [stat] query on
    one of the two paths fails, so a failed [stat] is never turned into
    "not equal"; an I/O failure inside the chunked byte comparison is
    turned into [False], both by [_do_compare] and by [compare_files]
    whenever it gets as far as comparing bytes. *)
Theorem compare_files_error_policy fs f1 f2 shallow :
  (fs_stat fs f1 = Raise OSError ∨ fs_stat fs f2 = Raise OSError ↔
   compare_files fs f1 f2 shallow = Raise OSError) ∧
  (comparison_io_failure fs f1 f2 → _do_compare fs f1 f2 = Ok false) ∧
  (∀ st1 st2,
     fs_stat fs f1 = Ok st1 → fs_stat fs f2 = Ok st2 →
     comparison_io_failure fs f1 f2 →
     shallow && bool_decide (_sig st1 = _sig st2) = false →
     compare_files fs f1 f2 shallow = Ok false).
Proof.
  assert (Hio : comparison_io_failure fs f1 f2 → _do_compare fs f1 f2 = Ok false).
  { unfold _do_compare.
    intros [H1|[(fp1 & H1 & H2)|(fp1 & fp2 & H1 & H2 & Hl)]].
    - by rewrite H1.
    - by rewrite H1, H2.
    - rewrite H1, H2.
      change (try_except_OSError (compare_loop BUFSIZE fp1 fp2) false = Ok false).
      by rewrite Hl. }
  split; [|split; [done|]].
  - unfold compare_files.
    destruct (fs_stat fs f1) as [st1|[]], (fs_stat fs f2) as [st2|[]]; cbn.
    + split; [by intros [|]|].
      repeat case_match; try done.
      rewrite _do_compare_spec. done.
    + split; [done|by right].
    + split; [done|by left].
    + split; [done|by left].
  - intros st1 st2 H1 H2 Hfail Hsh.
    rewrite (compare_files_stat_Ok _ _ _ _ _ _ H1 H2), Hsh.
    repeat case_match; auto.
Qed.

Lemma compare_files_error_policy_witness :
  compare_files Fixture.fs_compare "gone" "a" true = Raise OSError ∧
  _do_compare Fixture.fs_compare "a" "u" = Ok false ∧
  compare_files Fixture.fs_compare "b" "w" false = Ok false.
Proof.
  split; [|split].
  - apply (compare_files_error_policy Fixture.fs_compare "gone" "a" true).
    left. reflexivity.
  - apply (compare_files_error_policy Fixture.fs_compare "a" "u" true).
    right; left. eexists. split; reflexivity.
  - eapply (compare_files_error_policy Fixture.fs_compare "b" "w" false);
      [reflexivity..| |reflexivity].
    right; right. do 2 eexists. split; [reflexivity|]. split; [reflexivity|].
    vm_compute. reflexivity.
Defined.

(* --------------------------------------------------------------------- *)
(* Dicts of lists                                                         *)
(* --------------------------------------------------------------------- *)

Section dict.
Context {K : Type} `{EqDecision K}.
Implicit Types (d : list (K * list path)) (k : K) (x : path).

Lemma setdefault_append_keys d k x :
  (setdefault_append d k x).*1 = if decide (k ∈ d.*1) then d.*1 else d.*1 ++ [k].
Proof.
  induction d as [|[k' v] d IH]; cbn; [done|].
  destruct (decide (k' = k)) as [->|Hne]; cbn.
  - rewrite decide_True; [done|]. by left.
  - rewrite IH. destruct (decide (k ∈ d.*1)) as [Hin|Hnin].
    + rewrite decide_True; [done|]. by right.
    + rewrite decide_False; [done|].
      intros [->|?]%elem_of_cons; done.
Qed.

Lemma setdefault_append_NoDup d k x :
  NoDup d.*1 → NoDup (setdefault_append d k x).*1.
Proof.
  intros Hd. rewrite setdefault_append_keys. case_decide; [done|].
  apply NoDup_app. split; [done|]. split; [|apply NoDup_singleton].
  intros y Hy ->%list_elem_of_singleton. done.
Qed.

Lemma dict_get_setdefault_append d k x k' :
  dict_get (setdefault_append d k x) k'
  = if decide (k = k') then dict_get d k ++ [x] else dict_get d k'.
Proof.
  induction d as [|[k0 v] d IH]; cbn.
  - destruct (decide (k = k')); done.
  - destruct (decide (k0 = k)) as [->|Hne]; cbn.
    + destruct (decide (k = k')); done.
    + rewrite IH. destruct (decide (k = k')) as [->|]; [|done].
      by rewrite !decide_False by done.
Qed.

Lemma dict_get_elem d k v : NoDup d.*1 → (k, v) ∈ d → dict_get d k = v.
Proof.
  induction d as [|[k0 v0] d IH]; cbn; intros Hnd Hin.
  - by apply elem_of_nil in Hin.
  - apply NoDup_cons in Hnd as [Hk0 Hnd].
    apply elem_of_cons in Hin as [[= <- <-]|Hin].
    + by rewrite decide_True.
    + rewrite decide_False; [by apply IH|].
      intros ->. apply Hk0. by apply (list_elem_of_fmap_2 fst _ (k, v)).
Qed.

Lemma dict_get_nonempty d k : dict_get d k ≠ [] → (k, dict_get d k) ∈ d.
Proof.
  induction d as [|[k0 v0] d IH]; cbn; [done|].
  destruct (decide (k0 = k)) as [->|]; [by left|]. right. auto.
Qed.

Section group_by.
Variable key : path → option K.

Lemma group_by_cons x l d :
  group_by key (x :: l) d
  = group_by key l (match key x with
                    | Some k => setdefault_append d k x
                    | None => d
                    end).
Proof. done. Qed.

Lemma group_by_NoDup l d : NoDup d.*1 → NoDup (group_by key l d).*1.
Proof.
  revert d. induction l as [|x l IH]; intros d Hd; [done|].
  rewrite group_by_cons. apply IH.
  destruct (key x); [by apply setdefault_append_NoDup|done].
Qed.

Lemma group_by_get l d k :
  dict_get (group_by key l d) k
  = dict_get d k ++ filter (λ x, key x = Some k) l.
Proof.
  revert d. induction l as [|x l IH]; intros d.
  - by rewrite filter_nil, app_nil_r.
  - rewrite group_by_cons, IH. destruct (key x) as [k0|] eqn:Hx.
    + rewrite dict_get_setdefault_append.
      destruct (decide (k0 = k)) as [->|Hne].
      * rewrite filter_cons_True by done. by rewrite <- app_assoc.
      * rewrite filter_cons_False; [done|]. congruence.
    + rewrite filter_cons_False; [done|]. congruence.
Qed.

Lemma group_by_values_nonempty l d :
  Forall (λ v, v ≠ []) d.*2 → Forall (λ v, v ≠ []) (group_by key l d).*2.
Proof.
  revert d. induction l as [|x l IH]; intros d Hd; [done|].
  rewrite group_by_cons. apply IH. destruct (key x) as [k|]; [|done].
  clear IH. induction d as [|[k0 v0] d IHd]; cbn.
  - constructor; [done|constructor].
  - apply Forall_cons in Hd as [Hv Hd].
    destruct (decide (k0 = k)); cbn; constructor; auto.
    by destruct v0.
Qed.

(** The groups of the dict are the non-empty classes of the input
    under [key], each in input order. *)
Lemma group_by_values l v :
  v ∈ (group_by key l []).*2 ↔
  v ≠ [] ∧ ∃ k, v = filter (λ x, key x = Some k) l.
Proof.
  split.
  - intros Hv. split.
    + revert v Hv. apply Forall_forall, group_by_values_nonempty. constructor.
    + apply list_elem_of_fmap in Hv as ([k v'] & -> & Hin). exists k. cbn.
      rewrite <- (dict_get_elem _ _ _ (group_by_NoDup l [] (NoDup_nil_2)) Hin).
      by rewrite group_by_get.
  - intros [Hne [k ->]].
    pose proof (group_by_get l [] k) as Hg. cbn in Hg. rewrite <- Hg in *.
    apply (list_elem_of_fmap_2 snd _ (k, _)). by apply dict_get_nonempty.
Qed.

Lemma dict_values_disjoint d :
  NoDup d.*1 →
  (∀ k v, (k, v) ∈ d → ∀ x, x ∈ v → key x = Some k) →
  disjoint_list d.*2.
Proof.
  induction d as [|[k v] d IH]; cbn; [done|]. intros Hnd Hkey.
  apply NoDup_cons in Hnd as [Hk Hnd]. split.
  - apply Forall_forall. intros v' Hv' x Hx Hx'.
    apply list_elem_of_fmap in Hv' as ([k' v''] & -> & Hin). cbn in Hx'.
    assert (key x = Some k) as E1 by (eapply Hkey; [left|done]).
    assert (key x = Some k') as E2 by (eapply Hkey; [by right|done]).
    assert (k = k') as -> by congruence.
    apply Hk. by apply (list_elem_of_fmap_2 fst _ (k', v'')).
  - apply IH; [done|]. intros k' v' Hin. apply Hkey. by right.
Qed.

Lemma group_by_disjoint l : disjoint_list (group_by key l []).*2.
Proof.
  apply dict_values_disjoint; [apply group_by_NoDup; constructor|].
  intros k v Hin x Hx.
  rewrite <- (dict_get_elem _ _ _ (group_by_NoDup l [] (NoDup_nil_2)) Hin) in Hx.
  rewrite group_by_get in Hx. cbn in Hx.
  by apply list_elem_of_filter in Hx as [? _].
Qed.
End group_by.
End dict.

(* --------------------------------------------------------------------- *)
(* Lists of groups                                                        *)
(* --------------------------------------------------------------------- *)

Lemma at_least_two_elem {K} (d : list (K * list path)) g :
  g ∈ at_least_two d ↔ (1 < length g)%nat ∧ g ∈ d.*2.
Proof. unfold at_least_two. by rewrite list_elem_of_filter. Qed.

Lemma disjoint_list_sublist gs gs' :
  gs' `sublist_of` gs → disjoint_list gs → disjoint_list gs'.
Proof.
  induction 1 as [|g l1 l2 Hsub IH|g l1 l2 Hsub IH]; cbn; [done|..].
  - intros [Hg Hd]. split; [|auto]. rewrite Forall_forall in *.
    intros g' Hg'. apply Hg. by eapply elem_of_sublist.
  - intros [_ Hd]. auto.
Qed.

Lemma disjoint_list_app gs1 gs2 :
  disjoint_list (gs1 ++ gs2) ↔
  disjoint_list gs1 ∧ disjoint_list gs2 ∧
  ∀ g1 g2 p, g1 ∈ gs1 → g2 ∈ gs2 → p ∈ g1 → p ∉ g2.
Proof.
  induction gs1 as [|g gs1 IH]; cbn.
  - split; [intros ?; split_and!; [done..|]|tauto].
    intros ?? p []%elem_of_nil.
  - rewrite Forall_app, IH, !Forall_forall. split.
    + intros [[H1 H2] (H3 & H4 & H5)]. split_and!; try done.
      intros g1 g2 p [->|?]%elem_of_cons ?; eauto.
    + intros ([H1 H2] & H3 & H4). split_and!; try done.
      * intros g2 ? p. apply H4; [by left|done].
      * intros g1 g2 p ?. apply H4. by right.
Qed.

(** [disjoint_list] read by positions. *)
Lemma disjoint_list_pairwise gs : disjoint_list gs → pairwise_disjoint gs.
Proof.
  induction gs as [|g gs IH]; cbn.
  - intros _ i j g1 g2 _ Hi. by rewrite lookup_nil in Hi.
  - intros [Hg Hd] i j g1 g2 Hij Hi Hj p H1 H2.
    rewrite Forall_forall in Hg.
    destruct i as [|i], j as [|j]; cbn in Hi, Hj.
    + by destruct Hij.
    + injection Hi as <-.
      apply (Hg g2 (list_elem_of_lookup_2 _ _ _ Hj) p H1 H2).
    + injection Hj as <-.
      apply (Hg g1 (list_elem_of_lookup_2 _ _ _ Hi) p H2 H1).
    + apply (IH Hd i j g1 g2 (ltac:(congruence)) Hi Hj p H1 H2).
Qed.

Lemma disjoint_list_bind (f : list path → list (list path)) gs :
  disjoint_list gs →
  (∀ g, disjoint_list (f g)) →
  (∀ g g' p, g' ∈ f g → p ∈ g' → p ∈ g) →
  disjoint_list (gs ≫= f).
Proof.
  intros Hd Hf Hsub. induction gs as [|g gs IH]; cbn; [done|].
  destruct Hd as [Hg Hd]. rewrite Forall_forall in Hg.
  apply disjoint_list_app. split_and!; [done|auto|].
  intros g1 g2 p H1 H2 Hp1 Hp2.
  apply list_elem_of_bind in H2 as (g0 & H2 & Hg0).
  apply (Hg g0 Hg0 p); eauto.
Qed.

(* --------------------------------------------------------------------- *)
(* Waypoints 3 to 6 as folds                                              *)
(* --------------------------------------------------------------------- *)

Lemma getsize_Ok fs p size :
  getsize fs p = Ok size ↔ ∃ st, fs_stat fs p = Ok st ∧ st_size st = size.
Proof.
  unfold getsize. destruct (fs_stat fs p) as [st|e]; cbn; split.
  - intros [= <-]. eauto.
  - by intros (st' & [= <-] & <-).
  - done.
  - by intros (? & [=] & _).
Qed.

Lemma size_key_Some fs p size :
  size_key fs p = Some size ↔ getsize fs p = Ok size ∧ size ≠ 0.
Proof.
  unfold size_key. destruct (getsize fs p) as [s|e].
  - case_bool_decide; split; try done.
    + by intros [= <-].
    + by intros [[= <-] _].
    + by intros [[= <-] ?].
  - split; [done|by intros [? _]].
Qed.

Lemma size_key_getsize fs p size :
  getsize fs p = Ok size →
  size_key fs p = if bool_decide (size ≠ 0) then Some size else None.
Proof. intros Hsz. unfold size_key. by rewrite Hsz. Qed.

Lemma size_loop_Ok fs l d d' :
  size_loop fs l d = Ok d' →
  Forall (λ p, ∃ size, getsize fs p = Ok size) l ∧
  d' = group_by (size_key fs) l d.
Proof.
  revert d. induction l as [|p l IH]; intros d Hl.
  - by inversion Hl.
  - cbn [size_loop] in Hl.
    destruct (getsize fs p) as [size|e] eqn:Hsz; cbn in Hl; [|done].
    apply IH in Hl as [Hall ->]. split; [constructor; eauto|].
    rewrite group_by_cons, (size_key_getsize _ _ _ Hsz).
    by destruct (bool_decide (size ≠ 0)).
Qed.

Lemma size_loop_returns fs l d :
  Forall (λ p, ∃ size, getsize fs p = Ok size) l →
  size_loop fs l d = Ok (group_by (size_key fs) l d).
Proof.
  revert d. induction l as [|p l IH]; intros d Hall; [done|].
  apply Forall_cons in Hall as [[size Hsz] Hall].
  cbn [size_loop]. rewrite group_by_cons, (size_key_getsize _ _ _ Hsz).
  rewrite Hsz. cbn. rewrite IH by done.
  by destruct (bool_decide (size ≠ 0)).
Qed.

Lemma get_file_checksum_spec fs p :
  get_file_checksum fs p = Ok (checksum_key fs p).
Proof.
  unfold get_file_checksum, checksum_key, read_all.
  destruct (fs_open fs p) as [file|[]]; cbn; [|done].
  by destruct (io_error file).
Qed.

Lemma checksum_key_Some fs p c :
  checksum_key fs p = Some c ↔
  ∃ content, readable fs p content ∧ c = MD5.hexdigest content.
Proof.
  unfold checksum_key, readable.
  destruct (fs_open fs p) as [[content err]|e]; cbn.
  - destruct err; split; try done.
    + by intros (? & [=] & _).
    + intros [= <-]. eauto.
    + by intros (? & [= <-] & ->).
  - split; [done|by intros (? & [=] & _)].
Qed.

Lemma checksum_loop_spec fs l d :
  checksum_loop fs l d = Ok (group_by (checksum_key fs) l d).
Proof.
  revert d. induction l as [|p l IH]; intros d; [done|].
  cbn [checksum_loop]. rewrite group_by_cons, get_file_checksum_spec. cbn.
  rewrite IH. do 2 f_equal.
  destruct (checksum_key fs p) as [c|] eqn:Hc; [|done].
  apply checksum_key_Some in Hc as (content & _ & ->).
  cbn. by rewrite bool_decide_eq_true_2 by apply hexdigest_nonempty.
Qed.

(** The groups [group_files_by_checksum] would return. *)
Lemma group_files_by_checksum_spec fs l :
  group_files_by_checksum fs l
  = Ok (at_least_two (group_by (checksum_key fs) l [])).
Proof. unfold group_files_by_checksum. by rewrite checksum_loop_spec. Qed.

Lemma extend_loop_spec fs size_groups groups :
  extend_loop fs size_groups groups
  = Ok (groups ++
        (size_groups ≫= λ g, at_least_two (group_by (checksum_key fs) g []))).
Proof.
  revert groups. induction size_groups as [|g rest IH]; cbn; intros groups.
  - by rewrite app_nil_r.
  - rewrite group_files_by_checksum_spec. cbn. rewrite IH.
    by rewrite <- app_assoc.
Qed.

Lemma find_duplicate_files_Ok fs l gs :
  find_duplicate_files fs l = Ok gs ↔
  Forall (λ p, ∃ size, getsize fs p = Ok size) l ∧
  gs = at_least_two (group_by (size_key fs) l [])
       ≫= λ g, at_least_two (group_by (checksum_key fs) g []).
Proof.
  unfold find_duplicate_files, group_files_by_size. split.
  - destruct (size_loop fs l []) as [d|e] eqn:Hl; cbn; [|done].
    apply size_loop_Ok in Hl as [Hall ->].
    rewrite extend_loop_spec. cbn. by intros [= <-].
  - intros [Hall ->]. rewrite size_loop_returns by done. cbn.
    by rewrite extend_loop_spec.
Qed.

(** The groups of the checksum strategy are the classes of the input
    under (size, digest) that have more than one entry. *)
Lemma find_duplicate_files_groups fs l gs g :
  find_duplicate_files fs l = Ok gs →
  g ∈ gs ↔
  (1 < length g)%nat ∧
  ∃ size c, g = filter (λ p, checksum_key fs p = Some c)
                  (filter (λ p, size_key fs p = Some size) l).
Proof.
  intros [_ ->]%find_duplicate_files_Ok. rewrite list_elem_of_bind. split.
  - intros (sg & [Hlen Hg]%at_least_two_elem & [_ Hsg]%at_least_two_elem).
    apply group_by_values in Hg as [_ [c ->]].
    apply group_by_values in Hsg as [_ [size ->]]. eauto.
  - intros (Hlen & size & c & ->).
    set (sg := filter (λ p, size_key fs p = Some size) l) in *.
    assert (Hle : (length (filter (λ p, checksum_key fs p = Some c) sg)
                   ≤ length sg)%nat) by apply length_filter.
    exists sg. split; apply at_least_two_elem; (split; [lia|]).
    + apply group_by_values. split; [|eauto]. intros E. rewrite E in Hlen.
      cbn in Hlen. lia.
    + apply group_by_values. split; [|eauto]. intros E. rewrite E in Hle, Hlen.
      cbn in Hle, Hlen. lia.
Qed.

Lemma find_duplicate_files_disjoint fs l gs :
  find_duplicate_files fs l = Ok gs → disjoint_list gs.
Proof.
  intros [_ ->]%find_duplicate_files_Ok.
  assert (Hal : ∀ K (d : list (K * list path)),
            disjoint_list d.*2 → disjoint_list (at_least_two d)).
  { intros K d. apply disjoint_list_sublist, sublist_filter. }
  apply disjoint_list_bind.
  - apply Hal, group_by_disjoint.
  - intros g. apply Hal, group_by_disjoint.
  - intros g g' p [_ Hg']%at_least_two_elem Hp.
    apply group_by_values in Hg' as [_ [c ->]].
    by apply list_elem_of_filter in Hp as [_ ?].
Qed.

(* --------------------------------------------------------------------- *)
(* The comparison strategy                                                *)
(* --------------------------------------------------------------------- *)

Lemma collect_loop_Ok fs current others g g' :
  collect_loop fs current others g = Ok g' →
  g' = g ++ filter (λ f, same fs current f) others ∧
  Forall (λ f, ∃ b, compare_files fs current f true = Ok b) others.
Proof.
  revert g. induction others as [|f rest IH]; intros g Hc.
  - inversion Hc; subst. by rewrite filter_nil, app_nil_r.
  - cbn [collect_loop] in Hc.
    destruct (compare_files fs current f true) as [b|e] eqn:Hb; cbn in Hc; [|done].
    apply IH in Hc as [-> Hall]. split; [|constructor; eauto].
    destruct b.
    + rewrite filter_cons_True by done. by rewrite <- app_assoc.
    + rewrite filter_cons_False; [done|]. unfold same. congruence.
Qed.

Lemma by_cmp_loop_cons so fs current others groups :
  by_cmp_loop so fs (current :: others) groups
  = match collect_loop fs current others [current] with
    | Raise e => Raise e
    | Ok group_duplicate_files =>
        by_cmp_loop so fs
          (list_of_difference so (current :: others) group_duplicate_files)
          (if bool_decide (1 < length group_duplicate_files)%nat
           then groups ++ [group_duplicate_files]
           else groups)
    end.
Proof.
  simp by_cmp_loop.
  destruct (inspect (collect_loop fs current others [current])) as [r Hr].
  transitivity
    (match r with
     | Raise e => Raise e
     | Ok g =>
         by_cmp_loop so fs (list_of_difference so (current :: others) g)
           (if bool_decide (1 < length g)%nat then groups ++ [g] else groups)
     end).
  - destruct r; by simp by_cmp_loop.
  - by rewrite Hr.
Qed.

(** Each pass takes [current] out of the pool, which gets shorter. *)
Lemma pool_shrinks so fs current others g :
  collect_loop fs current others [current] = Ok g →
  current ∈ g ∧
  (length (list_of_difference so (current :: others) g)
   < length (current :: others))%nat.
Proof.
  intros [-> _]%collect_loop_Ok.
  assert (Hin : current ∈ [current] ++ filter (λ f, same fs current f) others)
    by (apply elem_of_app; left; by left).
  split; [done|].
  set (g := [current] ++ filter _ others) in *.
  assert (Hsub : current :: list_of_difference so (current :: others) g
                 ⊆+ current :: others).
  { apply NoDup_submseteq.
    - constructor; [|apply list_of_difference_NoDup].
      by intros [_ Hn]%list_of_difference_elem.
    - intros y [->|Hy]%elem_of_cons; [left|].
      by apply list_of_difference_elem in Hy as [Hy _]. }
  apply submseteq_length in Hsub. cbn in Hsub. cbn. lia.
Qed.

Lemma pool_ind (P : list path → Prop) :
  (∀ l, (∀ l', (length l' < length l)%nat → P l') → P l) → ∀ l, P l.
Proof.
  intros Hstep l. remember (length l) as n eqn:Hn. revert l Hn.
  induction n as [n IH] using lt_wf_ind. intros l ->.
  apply Hstep. intros l' Hlt. by apply (IH (length l')).
Qed.

(** The groups found so far are only ever appended to. *)
Lemma by_cmp_loop_acc so fs l acc :
  by_cmp_loop so fs l acc = (acc ++.) <$> by_cmp_loop so fs l [].
Proof.
  revert acc. induction l as [l IH] using pool_ind. intros acc.
  destruct l as [|current others]; [simp by_cmp_loop; cbn; by rewrite app_nil_r|].
  rewrite !by_cmp_loop_cons.
  destruct (collect_loop fs current others [current]) as [g|e] eqn:Hg; [|done].
  apply (pool_shrinks so) in Hg as [_ Hlt].
  rewrite (IH _ Hlt (if bool_decide _ then _ else _)).
  rewrite (IH _ Hlt (if bool_decide _ then [] ++ _ else _)).
  destruct (by_cmp_loop so fs _ []) as [gs|e]; cbn; [|done].
  f_equal. case_bool_decide; [|done]. by rewrite <- app_assoc.
Qed.

(** One pass of the loop on a non-empty pool. *)
Lemma by_cmp_step so fs current others gs :
  by_cmp_loop so fs (current :: others) [] = Ok gs →
  ∃ gs',
    by_cmp_loop so fs
      (list_of_difference so (current :: others) (cluster fs current others)) []
    = Ok gs' ∧
    gs = (if bool_decide (1 < length (cluster fs current others))%nat
          then [cluster fs current others] else []) ++ gs' ∧
    Forall (λ f, ∃ b, compare_files fs current f true = Ok b) others.
Proof.
  rewrite by_cmp_loop_cons.
  destruct (collect_loop fs current others [current]) as [g|e] eqn:Hg; [|done].
  apply collect_loop_Ok in Hg as [-> Hall].
  change ([current] ++ filter (λ f, same fs current f) others)
    with (cluster fs current others).
  intros Hl. rewrite by_cmp_loop_acc in Hl.
  destruct (by_cmp_loop so fs _ []) as [gs'|e]; [|done].
  exists gs'. split; [done|]. split; [|done].
  cbn in Hl. injection Hl as <-. reflexivity.
Qed.

Lemma by_cmp_step_shorter so fs current others :
  (length (list_of_difference so (current :: others) (cluster fs current others))
   < length (current :: others))%nat.
Proof.
  set (g := cluster fs current others).
  assert (Hsub : current :: list_of_difference so (current :: others) g
                 ⊆+ current :: others).
  { apply NoDup_submseteq.
    - constructor; [|apply list_of_difference_NoDup].
      intros [_ Hn]%list_of_difference_elem. apply Hn. by left.
    - intros y [->|Hy]%elem_of_cons; [left|].
      by apply list_of_difference_elem in Hy as [Hy _]. }
  apply submseteq_length in Hsub. cbn in Hsub. cbn. lia.
Qed.

(** Every group has more than one entry, and every entry comes from the
    pool. *)
Lemma by_cmp_loop_groups so fs l gs :
  by_cmp_loop so fs l [] = Ok gs →
  Forall (λ g, (1 < length g)%nat ∧ ∀ p, p ∈ g → p ∈ l) gs.
Proof.
  revert gs. induction l as [l IH] using pool_ind. intros gs Hl.
  destruct l as [|current others].
  { simp by_cmp_loop in Hl. injection Hl as <-. constructor. }
  apply by_cmp_step in Hl as (gs' & Hl' & -> & _).
  apply Forall_app. split.
  - case_bool_decide as Hlen; constructor; [|constructor].
    split; [done|]. intros p [->|[_ Hp]%list_elem_of_filter]%elem_of_cons.
    + by left.
    + by right.
  - apply IH in Hl'; [|apply by_cmp_step_shorter].
    eapply Forall_impl; [exact Hl'|]. cbn. intros g [Hlen Hsub]. split; [done|].
    intros p Hp. by apply Hsub, list_of_difference_elem in Hp as [? _].
Qed.

Lemma by_cmp_loop_disjoint so fs l gs :
  by_cmp_loop so fs l [] = Ok gs → disjoint_list gs.
Proof.
  revert gs. induction l as [l IH] using pool_ind. intros gs Hl.
  destruct l as [|current others].
  { simp by_cmp_loop in Hl. by injection Hl as <-. }
  apply by_cmp_step in Hl as (gs' & Hl' & -> & _).
  pose proof (by_cmp_loop_groups _ _ _ _ Hl') as Hin.
  apply IH in Hl'; [|apply by_cmp_step_shorter].
  case_bool_decide; [|done]. cbn. split; [|done].
  eapply Forall_impl; [exact Hin|]. cbn. intros g' [_ Hsub] p Hp Hp'.
  by apply Hsub, list_of_difference_elem in Hp' as [_ ?].
Qed.

(** Cutting the loop off after as many passes as the pool has entries
    does not cut it short. *)
Lemma by_cmp_iterations_enough n so fs l acc :
  (length l ≤ n)%nat →
  by_cmp_iterations n so fs l acc = Some (by_cmp_loop so fs l acc).
Proof.
  revert l acc. induction n as [|n IH]; intros l acc Hn.
  - destruct l; [|cbn in Hn; lia]. by simp by_cmp_loop.
  - destruct l as [|current others]; [by simp by_cmp_loop|].
    cbn [by_cmp_iterations]. rewrite by_cmp_loop_cons.
    destruct (collect_loop fs current others [current]) as [g|e] eqn:Hg; [|done].
    apply IH. apply (pool_shrinks so) in Hg as [_ Hlt]. cbn in Hn, Hlt. lia.
Qed.

(* --------------------------------------------------------------------- *)
(* The comparison strategy and the order of set iteration                 *)
(* --------------------------------------------------------------------- *)

(** [compare_files] does not depend on the order of its two files. *)
Lemma compare_files_comm fs f1 f2 shallow :
  compare_files fs f1 f2 shallow = compare_files fs f2 f1 shallow.
Proof.
  destruct (fs_stat fs f1) as [st1|[]] eqn:H1, (fs_stat fs f2) as [st2|[]] eqn:H2.
  - rewrite (compare_files_stat_Ok _ _ _ _ _ _ H1 H2),
            (compare_files_stat_Ok _ _ _ _ _ _ H2 H1).
    rewrite (orb_comm (bool_decide (S_IFMT (st_mode st2) ≠ S_IFREG))).
    destruct (_ || _); [done|].
    rewrite (bool_decide_ext (_sig st2 = _sig st1) (_sig st1 = _sig st2)) by done.
    destruct (_ && _); [done|].
    rewrite (bool_decide_ext (st_size st2 ≠ st_size st1)
                             (st_size st1 ≠ st_size st2)) by done.
    destruct (bool_decide _); [done|].
    rewrite !_do_compare_spec. f_equal.
    destruct (fs_open fs f1) as [fp1|], (fs_open fs f2) as [fp2|]; try done.
    rewrite (bool_decide_ext (pending fp2 = pending fp1)
                             (pending fp1 = pending fp2)) by done.
    by destruct (bool_decide _), (io_error fp1), (io_error fp2).
  - unfold compare_files. by rewrite H1, H2.
  - unfold compare_files. by rewrite H1, H2.
  - unfold compare_files. by rewrite H1, H2.
Qed.

Lemma same_sym fs x y : same fs x y → same fs y x.
Proof. unfold same. by rewrite compare_files_comm. Qed.

Lemma cluster_elem fs current others y :
  y ∈ cluster fs current others ↔
  y ∈ current :: others ∧ (y = current ∨ same fs current y).
Proof.
  unfold cluster. rewrite !elem_of_cons, list_elem_of_filter. tauto.
Qed.

Section classes.
Context (fs : filesystem).

Lemma transitive_on_subset l l' :
  (∀ x, x ∈ l' → x ∈ l) → transitive_on fs l → transitive_on fs l'.
Proof. unfold transitive_on. eauto 10. Qed.

(** Taking a cluster out of the pool leaves the classes of the
    remaining files untouched. *)
Lemma class_of_rest l l' current others x g :
  l = current :: others →
  transitive_on fs l →
  (∀ z, z ∈ l' ↔ z ∈ l ∧ z ∉ cluster fs current others) →
  x ∈ l' →
  class_of fs l' x g ↔ class_of fs l x g.
Proof.
  intros -> Htr Hl' Hx.
  apply Hl' in Hx as [Hxl Hxg].
  assert (Hkeep : ∀ y, y ∈ current :: others → (y = x ∨ same fs x y) →
            y ∉ cluster fs current others).
  { intros y Hy Hxy [_ Hcy]%cluster_elem. apply Hxg, cluster_elem.
    split; [done|]. destruct Hxy as [->|Hxy]; [done|]. right.
    destruct Hcy as [->|Hcy]; [by apply same_sym|].
    apply (Htr _ y); [by left|done..|by apply same_sym]. }
  unfold class_of.
split; intros Hc y; rewrite Hc, Hl'; specialize (Hkeep y); tauto.
Qed.

Lemma by_cmp_loop_classes so l gs :
  NoDup l → transitive_on fs l →
  by_cmp_loop so fs l [] = Ok gs → classes_of fs l gs.
Proof.
  revert gs. induction l as [l IH] using pool_ind. intros gs Hnd Htr Hl.
  destruct l as [|current others].
  { simp by_cmp_loop in Hl. injection Hl as <-. split.
    - by intros g ?%elem_of_nil.
    - by intros x y ?%elem_of_nil. }
  apply by_cmp_step in Hl as (gs' & Hl' & -> & _).
  set (g0 := cluster fs current others) in *.
  set (l' := list_of_difference so (current :: others) g0) in *.
  assert (Hl'elem : ∀ z, z ∈ l' ↔ z ∈ current :: others ∧ z ∉ g0)
    by apply list_of_difference_elem.
  assert (Hsub : ∀ x, x ∈ l' → x ∈ current :: others)
    by (intros x Hx; by apply Hl'elem in Hx as [? _]).
  apply IH in Hl' as [Hsound Hcomplete];
    [|apply by_cmp_step_shorter|apply list_of_difference_NoDup
     |by eapply transitive_on_subset].
  assert (Hg0 : class_of fs (current :: others) current g0)
    by (intros y; apply cluster_elem).
  apply NoDup_cons in Hnd as [Hcur _].
  split.
  - intros g [Hg|Hg]%elem_of_app.
    + case_bool_decide as Hlen; [|by apply elem_of_nil in Hg].
      apply list_elem_of_singleton in Hg as ->.
      destruct (filter (λ f, same fs current f) others) as [|y ys] eqn:Hf;
        [unfold g0, cluster in Hlen; rewrite Hf in Hlen; cbn in Hlen; lia|].
      assert (Hy : y ∈ filter (λ f, same fs current f) others)
        by (rewrite Hf; left).
      apply list_elem_of_filter in Hy as [Hsame Hy].
      exists current, y. split_and!; [by left|done| |by intros ->].
      apply cluster_elem. split; [by right|by right].
    + destruct (Hsound g Hg) as (x & y & Hx & Hc & Hy & Hne).
      exists x, y. split_and!; [auto|  |done..].
      by apply (class_of_rest (current :: others) l' current others x g
                  eq_refl Htr Hl'elem Hx).
  - intros x y Hx Hy Hne Hxy.
    destruct (decide (x ∈ g0)) as [Hxg|Hxg].
    + (* the class of [x] is the first cluster *)
      assert (Hcx : class_of fs (current :: others) x g0).
      { apply cluster_elem in Hxg as [_ Hcx]. intros z. rewrite (Hg0 z).
        destruct Hcx as [->|Hcx]; [done|]. split; intros [Hz Hs]; (split; [done|]).
        - right. destruct Hs as [->|Hs]; [by apply same_sym|].
          apply (Htr _ current); [done|by left|done|by apply same_sym|done].
        - right. destruct Hs as [->|Hs]; [done|].
          apply (Htr _ x); [by left|done..]. }
      exists g0. split; [|done]. apply elem_of_app; left.
      assert (Hyg : y ∈ g0) by (apply Hcx; auto).
      rewrite bool_decide_eq_true_2; [by left|].
      assert (Hxy2 : [x; y] ⊆+ g0).
      { apply NoDup_submseteq.
        - apply NoDup_cons. split; [|apply NoDup_singleton].
          intros ->%list_elem_of_singleton. done.
        - intros z [->|Hz]%elem_of_cons; [done|].
          by apply list_elem_of_singleton in Hz as ->. }
      apply submseteq_length in Hxy2.
      change (length [x; y]) with 2%nat in Hxy2. lia.
    + assert (Hx' : x ∈ l') by (apply Hl'elem; done).
      assert (Hcr := λ g, class_of_rest (current :: others) l' current others
                            x g eq_refl Htr Hl'elem Hx').
      assert (Hy' : y ∈ l').
      { apply Hl'elem. split; [done|]. intros Hyg. apply Hxg.
        apply cluster_elem. split; [done|].
        apply cluster_elem in Hyg as [_ [->|Hcy]].
        - right. by apply same_sym.
        - right. apply (Htr _ y); [by left|done..|by apply same_sym]. }
      destruct (Hcomplete x y Hx' Hy' Hne Hxy) as (g & Hg & Hc).
      exists g. split; [apply elem_of_app; by right|]. by apply Hcr.
Qed.

Lemma classes_of_same_groups l1 l2 gs1 gs2 :
  (∀ x, x ∈ l1 ↔ x ∈ l2) →
  classes_of fs l1 gs1 → classes_of fs l2 gs2 →
  ∀ g1, g1 ∈ gs1 → ∃ g2, g2 ∈ gs2 ∧ same_paths g1 g2.
Proof.
  intros Hl [Hs1 _] [_ Hc2] g1 Hg1.
  destruct (Hs1 g1 Hg1) as (x & y & Hx & Hc & Hy & Hne).
  apply Hc in Hy as Hy'. destruct Hy' as [Hyl [->|Hxy]]; [done|].
  destruct (Hc2 x y) as (g2 & Hg2 & Hc'); [by apply Hl..|done|done|].
  exists g2. split; [done|]. intros p. rewrite (Hc p), (Hc' p), Hl. done.
Qed.
End classes.

(* ===================================================================== *)
(* The claims about the two strategies                                    *)
(* ===================================================================== *)

Lemma scan_files_elem fs root p :
  p ∈ scan_files fs root → fs_islink fs p = false.
Proof.
  unfold scan_files. intros [Hl _]%list_elem_of_filter.
  by destruct (fs_islink fs p).
Qed.

Lemma find_duplicate_files_member fs l gs p :
  find_duplicate_files fs l = Ok gs → grouped p gs →
  p ∈ l ∧ ∃ size, getsize fs p = Ok size ∧ size ≠ 0.
Proof.
  intros Hgs (g & Hg & Hp).
  apply (find_duplicate_files_groups _ _ _ _ Hgs) in Hg as (_ & size & c & ->).
  apply list_elem_of_filter in Hp as [_ Hp].
  apply list_elem_of_filter in Hp as [Hsz Hp]. split; [done|].
  apply size_key_Some in Hsz. eauto.
Qed.

Lemma find_duplicate_files_by_cmp_member so fs l gs p :
  find_duplicate_files_by_cmp so fs l = Ok gs → grouped p gs → p ∈ l.
Proof.
  intros Hgs (g & Hg & Hp). apply by_cmp_loop_groups in Hgs.
  rewrite Forall_forall in Hgs. by apply (Hgs g Hg).
Qed.

(** C1 (as amended). On the output of [scan_files], no path in a group
    of the checksum strategy is a symbolic link or a zero-byte file, and
    no path in a group of the comparison strategy is a symbolic link. *)
Theorem groups_exclude_links_and_empty_files so fs root gs p :
  grouped p gs →
  (find_duplicate_files fs (scan_files fs root) = Ok gs →
   fs_islink fs p = false ∧ ∃ size, getsize fs p = Ok size ∧ size ≠ 0) ∧
  (find_duplicate_files_by_cmp so fs (scan_files fs root) = Ok gs →
   fs_islink fs p = false).
Proof.
  intros Hp. split; intros Hgs.
  - destruct (find_duplicate_files_member _ _ _ _ Hgs Hp) as [Hin Hsize].
    split; [by eapply scan_files_elem|done].
  - eapply scan_files_elem, find_duplicate_files_by_cmp_member; eauto.
Qed.

Lemma groups_exclude_links_and_empty_files_witness :
  (fs_islink Fixture.fs_scenario "/r/B" = false ∧
   ∃ size, getsize Fixture.fs_scenario "/r/B" = Ok size ∧ size ≠ 0) ∧
  fs_islink Fixture.fs_scenario "/r/B" = false.
Proof.
  destruct (groups_exclude_links_and_empty_files Fixture.first_seen
              Fixture.fs_scenario "/r" [["/r/A"; "/r/B"]] "/r/B")%string
    as [Hchecksum Hcmp].
  - exists ["/r/A"; "/r/B"]%string. split; [left|right; left].
  - split; [apply Hchecksum|apply Hcmp]; vm_compute; reflexivity.
Defined.

(** C1 as stated fails for the comparison strategy: two empty files are
    reported as a group. *)
Lemma empty_files_grouped_by_cmp :
  find_duplicate_files_by_cmp Fixture.first_seen Fixture.fs_empty_pair
    (scan_files Fixture.fs_empty_pair "/r")
  = Ok [["/r/D"; "/r/E"]%string] ∧
  grouped "/r/D" [["/r/D"; "/r/E"]%string] ∧
  getsize Fixture.fs_empty_pair "/r/D" = Ok 0.
Proof.
  split; [vm_compute; reflexivity|]. split; [|vm_compute; reflexivity].
  eexists. split; left.
Qed.

(** C2 (as amended). When every size query succeeds the checksum
    strategy returns, and in its result: two distinct listed files with
    the same non-zero size and the same content are in one group; two
    files whose contents have different MD5 digests are never in one
    group. *)
Theorem checksum_strategy_groups fs l :
  Forall (λ p, ∃ size, getsize fs p = Ok size) l →
  ∃ gs, find_duplicate_files fs l = Ok gs ∧
    (∀ p q size content,
       p ∈ l → q ∈ l → p ≠ q →
       getsize fs p = Ok size → getsize fs q = Ok size → size ≠ 0 →
       readable fs p content → readable fs q content →
       ∃ g, g ∈ gs ∧ p ∈ g ∧ q ∈ g) ∧
    (∀ p q c1 c2 g,
       readable fs p c1 → readable fs q c2 →
       MD5.hexdigest c1 ≠ MD5.hexdigest c2 →
       g ∈ gs → ¬ (p ∈ g ∧ q ∈ g)).
Proof.
  intros Hall.
  destruct (find_duplicate_files fs l) as [gs|e] eqn:Hgs.
  2:{ pose proof (proj2 (find_duplicate_files_Ok fs l _) (conj Hall eq_refl)).
      congruence. }
  exists gs. split; [done|]. split.
  - intros p q size content Hp Hq Hne Hsp Hsq Hsz Rp Rq.
    set (g := filter (λ p, checksum_key fs p = Some (MD5.hexdigest content))
                (filter (λ p, size_key fs p = Some size) l)).
    assert (Hmem : ∀ x, x ∈ l → getsize fs x = Ok size →
              readable fs x content → x ∈ g).
    { intros x Hx Hsx Rx. apply list_elem_of_filter. split.
      - apply checksum_key_Some. eauto.
      - apply list_elem_of_filter. split; [|done]. by apply size_key_Some. }
    exists g. split_and!; [|by apply Hmem..].
    apply (find_duplicate_files_groups _ _ _ _ Hgs). split; [|by eauto].
    assert (Hpq : [p; q] ⊆+ g).
    { apply NoDup_submseteq.
      - apply NoDup_cons. split; [|apply NoDup_singleton].
        by intros ?%list_elem_of_singleton.
      - intros z [->|Hz]%elem_of_cons; [by apply Hmem|].
        apply list_elem_of_singleton in Hz as ->. by apply Hmem. }
    apply submseteq_length in Hpq.
    change (length [p; q]) with 2%nat in Hpq. lia.
  - intros p q c1 c2 g Rp Rq Hdig Hg [Hp Hq].
    apply (find_duplicate_files_groups _ _ _ _ Hgs) in Hg as (_ & size & c & ->).
    apply list_elem_of_filter in Hp as [Hp _], Hq as [Hq _].
    apply checksum_key_Some in Hp as (c1' & Rp' & ->),
                               Hq as (c2' & Rq' & Hc).
    unfold readable in *. congruence.
Qed.

Lemma checksum_strategy_groups_witness :
  ∃ g, g ∈ [["/r/A"; "/r/B"]%string] ∧ "/r/A"%string ∈ g ∧ "/r/B"%string ∈ g.
Proof.
  destruct (checksum_strategy_groups Fixture.fs_scenario
              ["/r/A"; "/r/B"; "/r/C"; "/r/D"]%string)
    as (gs & Hgs & Hsame & _).
  - repeat constructor; eexists; vm_compute; reflexivity.
  - vm_compute in Hgs. injection Hgs as <-.
    apply (Hsame "/r/A" "/r/B" 1 (bytes_of_string "x"))%string;
      try (vm_compute; reflexivity); try discriminate.
    + left.
    + right; left.
Defined.

(** C2 as stated fails twice: two empty files have equal content and
    equal size and are not grouped; two files of equal size whose
    different contents collide under MD5 are grouped. *)
Lemma checksum_strategy_counterexample :
  find_duplicate_files Fixture.fs_collide ["e1"; "e2"; "m1"; "m2"]%string
  = Ok [["m1"; "m2"]%string] ∧
  (readable Fixture.fs_collide "e1" [] ∧ readable Fixture.fs_collide "e2" [] ∧
   getsize Fixture.fs_collide "e1" = getsize Fixture.fs_collide "e2" ∧
   ¬ grouped "e1" [["m1"; "m2"]%string]) ∧
  (readable Fixture.fs_collide "m1" Fixture.collision_1 ∧
   readable Fixture.fs_collide "m2" Fixture.collision_2 ∧
   Fixture.collision_1 ≠ Fixture.collision_2 ∧
   getsize Fixture.fs_collide "m1" = getsize Fixture.fs_collide "m2" ∧
   MD5.hexdigest Fixture.collision_1 = MD5.hexdigest Fixture.collision_2).
Proof.
  split; [vm_compute; reflexivity|]. split.
  - split_and!; try (vm_compute; reflexivity).
    intros (g & Hg & He). apply list_elem_of_singleton in Hg as ->.
    by repeat (apply elem_of_cons in He as [He|He]; [discriminate|]);
      apply elem_of_nil in He.
  - split_and!; try (vm_compute; reflexivity).
    vm_compute. discriminate.
Qed.

(** C4 (as amended). On an unchanged filesystem and the same input, the
    checksum strategy returns the same result every time; the comparison
    strategy returns the same groups as sets of paths, in some order,
    whatever the two iteration orders of its pool are, provided
    [compare_files] is transitive on the input. *)
Theorem rerun_same_groups so1 so2 fs l gs1 gs2 :
  (find_duplicate_files fs l = Ok gs1 → find_duplicate_files fs l = Ok gs2 →
   gs1 = gs2) ∧
  (transitive_on fs l →
   find_duplicate_files_by_cmp so1 fs l = Ok gs1 →
   find_duplicate_files_by_cmp so2 fs l = Ok gs2 →
   same_groups gs1 gs2).
Proof.
  split; [congruence|]. unfold find_duplicate_files_by_cmp.
  intros Htr H1 H2. destruct l as [|current others].
  { simp by_cmp_loop in H1, H2. injection H1 as <-. injection H2 as <-.
    split; by intros g ?%elem_of_nil. }
  apply by_cmp_step in H1 as (gs1' & H1 & -> & _).
  apply by_cmp_step in H2 as (gs2' & H2 & -> & _).
  set (g0 := cluster fs current others) in *.
  set (first := if bool_decide (1 < length g0)%nat then [g0] else []).
  assert (Hsub : ∀ so x, x ∈ list_of_difference so (current :: others) g0 →
            x ∈ current :: others)
    by (intros so x Hx; by apply list_of_difference_elem in Hx as [? _]).
  apply by_cmp_loop_classes in H1;
    [|apply list_of_difference_NoDup
     |apply (transitive_on_subset fs (current :: others)); [apply Hsub|done]].
  apply by_cmp_loop_classes in H2;
    [|apply list_of_difference_NoDup
     |apply (transitive_on_subset fs (current :: others)); [apply Hsub|done]].
  assert (Hpool : ∀ x, x ∈ list_of_difference so1 (current :: others) g0 ↔
                       x ∈ list_of_difference so2 (current :: others) g0)
    by (intros x; by rewrite !list_of_difference_elem).
  split.
  - intros g [Hg|Hg]%elem_of_app.
    + exists g. split; [apply elem_of_app; by left|done].
    + destruct (classes_of_same_groups fs _ _ _ _ Hpool H1 H2 g Hg)
        as (g' & Hg' & Hsame).
      exists g'. split; [apply elem_of_app; by right|done].
  - intros g [Hg|Hg]%elem_of_app.
    + exists g. split; [apply elem_of_app; by left|done].
    + destruct (classes_of_same_groups fs _ _ _ _
                  (λ x, symmetry (Hpool x)) H2 H1 g Hg) as (g' & Hg' & Hsame).
      exists g'. split; [apply elem_of_app; by right|].
      intros p. by rewrite (Hsame p).
Qed.

Lemma rerun_same_groups_witness :
  same_groups [["P1"; "P2"]; ["Q1"; "Q2"]]%string
              [["Q2"; "Q1"]; ["P1"; "P2"]]%string.
Proof.
  apply (rerun_same_groups Fixture.first_seen Fixture.last_seen
           Fixture.fs_pairs ["U"; "P1"; "P2"; "Q1"; "Q2"]%string).
  - apply (bool_decide_unpack _). vm_compute. exact I.
  - vm_compute. reflexivity.
  - vm_compute. reflexivity.
Defined.

(** C4 as stated fails for the comparison strategy: with [A] and [B]
    equal by signature only and [B] and [C] equal by content only, one
    iteration order of the pool reports [A] with [B] and another reports
    [C] with [B]. *)
Lemma rerun_by_cmp_differs :
  find_duplicate_files_by_cmp Fixture.first_seen Fixture.fs_chain
    ["D"; "A"; "B"; "C"]%string = Ok [["A"; "B"]%string] ∧
  find_duplicate_files_by_cmp Fixture.last_seen Fixture.fs_chain
    ["D"; "A"; "B"; "C"]%string = Ok [["C"; "B"]%string] ∧
  ¬ same_groups [["A"; "B"]%string] [["C"; "B"]%string].
Proof.
  split; [vm_compute; reflexivity|]. split; [vm_compute; reflexivity|].
  intros [Hsub _]. destruct (Hsub ["A"; "B"]%string) as (g & Hg & Hsame); [left|].
  apply list_elem_of_singleton in Hg as ->.
  assert (HA : "A"%string ∈ ["C"; "B"]%string) by (apply Hsame; left).
  by repeat (apply elem_of_cons in HA as [HA|HA]; [discriminate|]);
    apply elem_of_nil in HA.
Qed.

(** C5. For either strategy, groups at different positions of the
    result share no path, and every grouped path is one of the input. *)
Theorem groups_pairwise_disjoint so fs l gs :
  (find_duplicate_files fs l = Ok gs →
   pairwise_disjoint gs ∧ ∀ p, grouped p gs → p ∈ l) ∧
  (find_duplicate_files_by_cmp so fs l = Ok gs →
   pairwise_disjoint gs ∧ ∀ p, grouped p gs → p ∈ l).
Proof.
  split; intros Hgs; split.
  - by eapply disjoint_list_pairwise, find_duplicate_files_disjoint.
  - intros p Hp. by destruct (find_duplicate_files_member _ _ _ _ Hgs Hp).
  - by eapply disjoint_list_pairwise, by_cmp_loop_disjoint.
  - intros p Hp. by eapply find_duplicate_files_by_cmp_member.
Qed.

Lemma groups_pairwise_disjoint_witness :
  pairwise_disjoint [["P1"; "P2"]; ["Q1"; "Q2"]]%string ∧
  pairwise_disjoint [["Q2"; "Q1"]; ["P1"; "P2"]]%string.
Proof.
  split.
  - apply (groups_pairwise_disjoint Fixture.first_seen Fixture.fs_pairs
             ["U"; "P1"; "P2"; "Q1"; "Q2"]%string). vm_compute. reflexivity.
  - apply (groups_pairwise_disjoint Fixture.last_seen Fixture.fs_pairs
             ["U"; "P1"; "P2"; "Q1"; "Q2"]%string). vm_compute. reflexivity.
Defined.





(** C8. Every group returned by either strategy has at least two
    entries, for every input. *)
Theorem groups_have_two_members so fs l gs :
  (find_duplicate_files fs l = Ok gs → Forall (λ g, (2 ≤ length g)%nat) gs) ∧
  (find_duplicate_files_by_cmp so fs l = Ok gs →
   Forall (λ g, (2 ≤ length g)%nat) gs).
Proof.
  split; intros Hgs; apply Forall_forall; intros g Hg.
  - by apply (find_duplicate_files_groups _ _ _ _ Hgs) in Hg as [Hlen _].
  - apply by_cmp_loop_groups in Hgs. rewrite Forall_forall in Hgs.
    by destruct (Hgs g Hg).
Qed.

Lemma groups_have_two_members_witness :
  Forall (λ g, (2 ≤ length g)%nat) [["/r/A"; "/r/B"]%string] ∧
  Forall (λ g, (2 ≤ length g)%nat) [["Q2"; "Q1"]; ["P1"; "P2"]]%string.
Proof.
  split.
  - apply (groups_have_two_members Fixture.first_seen Fixture.fs_scenario
             (scan_files Fixture.fs_scenario "/r")). vm_compute. reflexivity.
  - apply (groups_have_two_members Fixture.last_seen Fixture.fs_pairs
             ["U"; "P1"; "P2"; "Q1"; "Q2"]%string). vm_compute. reflexivity.
Defined.

(** C10. [find_duplicate_files_by_cmp] terminates on every input list:
    in each pass [current] is in the collected group, so the pool that
    is left is strictly shorter, and the loop has ended, by returning
    or by raising, after at most as many passes as the list has
    entries. *)
Theorem find_duplicate_files_by_cmp_terminates so fs l :
  (∀ current others group_duplicate_files,
     collect_loop fs current others [current] = Ok group_duplicate_files →
     current ∈ group_duplicate_files ∧
     (length (list_of_difference so (current :: others) group_duplicate_files)
      < length (current :: others))%nat) ∧
  by_cmp_iterations (length l) so fs l []
  = Some (find_duplicate_files_by_cmp so fs l).
Proof.
  split.
  - intros current others g. apply pool_shrinks.
  - by apply by_cmp_iterations_enough.
Qed.
